(** * A visual metronome for rowing practice: pace derivation and timed cues

    Shallow embedding of [src/app.js].  The file has three parts:

    - [JSNumber]: the JavaScript Number type (IEEE 754 binary64, with its
      NaN, infinities and signed zeros) and the arithmetic the program uses;
    - [JSString]: [Number::toString], [StringToNumber] and [parseFloat],
      on which the program's [round] helper is built;
    - [App]: the program state, the pace functions and the timer-driven
      animation, followed by the properties established about them. *)

From Stdlib Require Import ZArith QArith Qabs Qpower Qround Lia Lqa Psatz.
From Stdlib Require Import String Ascii List Bool.
From stdpp Require Import base gmap strings list.
Import ListNotations.

Local Open Scope Z_scope.

(** ** JavaScript numbers *)

Module JSNumber.

(** A Number is NaN, an infinity, a signed zero, or [(-1)^neg * m * 2^e]
    with a 53-bit significand ([2^52 <= m < 2^53] for normal numbers,
    [m < 2^52] and [e = -1074] for subnormal ones). *)
Inductive Number : Type :=
| NaN
| Infinity (neg : bool)
| Zero (neg : bool)
| Finite (neg : bool) (m : positive) (e : Z).

Definition emin : Z := -1074.
Definition emax : Z := 971.

Definition Number_eqb (x y : Number) : bool :=
  match x, y with
  | NaN, NaN => true
  | Infinity s, Infinity t => Bool.eqb s t
  | Zero s, Zero t => Bool.eqb s t
  | Finite s m e, Finite t n f => Bool.eqb s t && Pos.eqb m n && Z.eqb e f
  | _, _ => false
  end.

(** The magnitude and the value of a number, as exact rationals (0 for the
    numbers that have none). *)
Definition mag (x : Number) : Q :=
  match x with
  | Finite _ m e => (inject_Z (Zpos m) * 2 ^ e)%Q
  | _ => 0%Q
  end.

Definition is_neg (x : Number) : bool :=
  match x with
  | NaN => false
  | Infinity s | Zero s | Finite s _ _ => s
  end.

Definition val (x : Number) : Q :=
  if is_neg x then (- mag x)%Q else mag x.

(** The integer nearest to [r], the even one when there are two. *)
Definition rne (r : Q) : Z :=
  let f := Qfloor r in
  match (r - inject_Z f ?= 1 # 2)%Q with
  | Lt => f
  | Gt => f + 1
  | Eq => if Z.even f then f else f + 1
  end.

(** [floor (log2 q)], for [q > 0]. *)
Definition ilog2 (q : Q) : Z :=
  let k := Z.log2 (Qnum q) - Z.log2 (Zpos (Qden q)) in
  if Qle_bool (2 ^ k) q then k else k - 1.

(** The Number nearest to [q >= 0] (ties to even), with sign [neg]: the
    rounding every arithmetic operation of IEEE 754 ends with.  The sign is
    given apart, so that a zero result keeps the sign of the exact one. *)
Definition round_mag (neg : bool) (q : Q) : Number :=
  let e := Z.max (ilog2 q - 52) emin in
  let m := rne (q / 2 ^ e) in
  if Qle_bool q 0 || (m =? 0) then Zero neg
  else
    let m' := if m =? 2 ^ 53 then 2 ^ 52 else m in
    let e' := if m =? 2 ^ 53 then e + 1 else e in
    if e' >? emax then Infinity neg else Finite neg (Z.to_pos m') e'.

(** Rounding of a signed rational; an exact zero is [+0]. *)
Definition of_Q (q : Q) : Number :=
  match (q ?= 0)%Q with
  | Eq => Zero false
  | Gt => round_mag false q
  | Lt => round_mag true (- q)
  end.

Definition of_Z (n : Z) : Number := of_Q (inject_Z n).

(** *** Arithmetic: [-x], [x + y], [x - y], [x * y], [x / y] *)

Definition neg (x : Number) : Number :=
  match x with
  | NaN => NaN
  | Infinity s => Infinity (negb s)
  | Zero s => Zero (negb s)
  | Finite s m e => Finite (negb s) m e
  end.

Definition add (x y : Number) : Number :=
  match x, y with
  | NaN, _ | _, NaN => NaN
  | Infinity s, Infinity t => if Bool.eqb s t then Infinity s else NaN
  | Infinity s, _ => Infinity s
  | _, Infinity t => Infinity t
  | Zero s, Zero t => Zero (s && t)
  | Zero _, _ => y
  | _, Zero _ => x
  | Finite _ _ _, Finite _ _ _ => of_Q (val x + val y)
  end.

Definition sub (x y : Number) : Number := add x (neg y).

Definition mul (x y : Number) : Number :=
  match x, y with
  | NaN, _ | _, NaN => NaN
  | Infinity _, Zero _ | Zero _, Infinity _ => NaN
  | Infinity s, Infinity t | Infinity s, Finite t _ _
  | Finite s _ _, Infinity t => Infinity (xorb s t)
  | Zero s, Zero t | Zero s, Finite t _ _ | Finite s _ _, Zero t =>
      Zero (xorb s t)
  | Finite s _ _, Finite t _ _ => round_mag (xorb s t) (mag x * mag y)
  end.

Definition div (x y : Number) : Number :=
  match x, y with
  | NaN, _ | _, NaN => NaN
  | Infinity _, Infinity _ => NaN
  | Zero _, Zero _ => NaN
  | Infinity s, Zero t | Infinity s, Finite t _ _ => Infinity (xorb s t)
  | Zero s, Infinity t | Finite s _ _, Infinity t => Zero (xorb s t)
  | Zero s, Finite t _ _ => Zero (xorb s t)
  | Finite s _ _, Zero t => Infinity (xorb s t)
  | Finite s _ _, Finite t _ _ => round_mag (xorb s t) (mag x / mag y)
  end.

(** *** Comparisons: [x < y] and [x == y] (both false as soon as NaN is
    involved; the two zeros are equal) *)

Definition lt (x y : Number) : bool :=
  match x, y with
  | NaN, _ | _, NaN => false
  | Infinity s, Infinity t => s && negb t
  | Infinity s, _ => s
  | _, Infinity t => negb t
  | _, _ => match (val x ?= val y)%Q with Lt => true | _ => false end
  end.

Definition equals (x y : Number) : bool :=
  match x, y with
  | NaN, _ | _, NaN => false
  | Infinity s, Infinity t => Bool.eqb s t
  | Infinity _, _ | _, Infinity _ => false
  | _, _ => Qeq_bool (val x) (val y)
  end.

(** *** [Math.round]: the nearest integer, ties toward [+Infinity];
    a result of zero keeps the sign of the argument. *)
Definition Math_round (x : Number) : Number :=
  match x with
  | Finite s _ _ =>
      let n := Qfloor (val x + (1 # 2))%Q in
      if n =? 0 then Zero s else of_Z n
  | _ => x
  end.

(** The literals of the program. *)
Definition num_0 : Number := Zero false.
Definition num_2 : Number := Eval vm_compute in of_Z 2.
Definition num_60 : Number := Eval vm_compute in of_Z 60.
Definition num_100 : Number := Eval vm_compute in of_Z 100.
Definition num_1000 : Number := Eval vm_compute in of_Z 1000.
Definition num_250 : Number := Eval vm_compute in of_Z 250.
Definition num_3300 : Number := Eval vm_compute in of_Z 3300.

End JSNumber.

(** ** Numbers and strings *)

Module JSString.
Import JSNumber.

(** Strings are handled as lists of code units (below 256). *)
Definition chars (s : string) : list ascii := list_ascii_of_string s.

Definition is_digit (c : ascii) : bool :=
  let n := Z.of_nat (nat_of_ascii c) in (48 <=? n) && (n <=? 57).

Definition digit_val (c : ascii) : Z := Z.of_nat (nat_of_ascii c) - 48.

Definition digit_char (d : Z) : ascii := ascii_of_nat (Z.to_nat (48 + d)).

(** White space and line terminators (those below 256). *)
Definition is_space (c : ascii) : bool :=
  let n := Z.of_nat (nat_of_ascii c) in
  ((9 <=? n) && (n <=? 13)) || (n =? 32) || (n =? 160).

(** *** Decimal digits *)

(** The [k] decimal digits of [s], most significant first. *)
Fixpoint digits (k : nat) (s : Z) : list Z :=
  match k with
  | O => []
  | S k' => (s / 10 ^ Z.of_nat k') mod 10 :: digits k' (s mod 10 ^ Z.of_nat k')
  end.

Definition digits_val (ds : list Z) : Z :=
  fold_left (fun acc d => 10 * acc + d) ds 0.

Definition digits_str (ds : list Z) : list ascii := map digit_char ds.

(** The number of decimal digits of a positive integer. *)
Fixpoint count_digits (fuel : nat) (n : Z) : nat :=
  match fuel with
  | O => 1%nat
  | S f => if n <? 10 then 1%nat else S (count_digits f (n / 10))
  end.

Definition num_digits (n : Z) : nat := count_digits (Z.to_nat (Z.log2 n)) n.

(** The decimal rendering of a non-negative integer. *)
Definition Z_str (n : Z) : list ascii := digits_str (digits (num_digits n) n).

Definition pow10 (p : Z) : Q := (inject_Z 10 ^ p)%Q.

(** *** [Number::toString]

    For a positive finite [x], ECMAScript picks integers [n], [k], [s] with
    [10^(k-1) <= s < 10^k] such that [s * 10^(n-k)] reads back as [x], with
    [k] as small as possible and then [s * 10^(n-k)] as close to [x] as
    possible. *)

(** [floor (log10 v)] for [v > 0]: an estimate from the binary logarithm,
    then corrected. *)
Fixpoint log10_up (fuel : nat) (v : Q) (g : Z) : Z :=
  match fuel with
  | O => g
  | S f => if Qle_bool (pow10 (g + 1)) v then log10_up f v (g + 1) else g
  end.

Fixpoint log10_down (fuel : nat) (v : Q) (g : Z) : Z :=
  match fuel with
  | O => g
  | S f => if Qle_bool (pow10 g) v then g else log10_down f v (g - 1)
  end.

Definition ilog10 (v : Q) : Z :=
  log10_down 4 v (log10_up 4 v (ilog2 v * 1233 / 4096)).

(** [s * 10^p] reads back as [x]. *)
Definition reads_as (x : Number) (s p : Z) : bool :=
  Number_eqb (round_mag false (inject_Z s * pow10 p)) x.

Definition has_digits (k : nat) (s : Z) : bool :=
  (10 ^ (Z.of_nat k - 1) <=? s) && (s <? 10 ^ Z.of_nat k).

(** The [k]-digit decimal that reads back as [x] and is closest to it, if
    there is one: it is one of the two [k]-digit neighbours of [v = |x|]. *)
Definition candidate (x : Number) (v : Q) (n0 : Z) (k : nat) : option (Z * Z) :=
  let p := n0 - Z.of_nat k in
  let lo := Qfloor (v / pow10 p) in
  let carry := lo + 1 =? 10 ^ Z.of_nat k in
  let hi := if carry then 10 ^ (Z.of_nat k - 1) else lo + 1 in
  let ph := if carry then p + 1 else p in
  let ok_lo := has_digits k lo && reads_as x lo p in
  let ok_hi := has_digits k hi && reads_as x hi ph in
  match ok_lo, ok_hi with
  | true, true =>
      match (v - inject_Z lo * pow10 p ?= inject_Z hi * pow10 ph - v)%Q with
      | Lt => Some (lo, p)
      | Gt => Some (hi, ph)
      | Eq => if Z.even lo then Some (lo, p) else Some (hi, ph)
      end
  | true, false => Some (lo, p)
  | false, true => Some (hi, ph)
  | false, false => None
  end.

Fixpoint shortest (x : Number) (v : Q) (n0 : Z) (fuel k : nat)
  : option (nat * Z * Z) :=
  match fuel with
  | O => None
  | S f =>
      match candidate x v n0 k with
      | Some (s, p) => Some (k, s, p)
      | None => shortest x v n0 f (S k)
      end
  end.

(** The exact decimal expansion of [m * 2^e]. *)
Definition exact_decimal (m : positive) (e : Z) : nat * Z * Z :=
  let s := if 0 <=? e then Zpos m * 2 ^ e else Zpos m * 5 ^ (- e) in
  (num_digits s, s, Z.min e 0).

(** The digits of the magnitude of a finite number and the position [n] of
    its decimal point.  Seventeen digits always suffice to tell one binary64
    number from its neighbours; the exact expansion closes the search. *)
Definition decimal_of (x : Number) : list Z * Z :=
  match x with
  | Finite _ m e =>
      let v := mag x in
      let '(k, s, p) :=
        match shortest (Finite false m e) v (ilog10 v + 1) 17 1 with
        | Some r => r
        | None => exact_decimal m e
        end in
      (digits k s, Z.of_nat k + p)
  | _ => ([], 0)
  end.

Definition zeros (n : Z) : list ascii := repeat "0"%char (Z.to_nat n).

(** The layout of the digits [ds] with the decimal point after the first
    [n] of them: plain notation when [-6 < n <= 21], exponential otherwise. *)
Definition render (ds : list Z) (n : Z) : list ascii :=
  let k := Z.of_nat (length ds) in
  if (k <=? n) && (n <=? 21) then digits_str ds ++ zeros (n - k)
  else if (0 <? n) && (n <=? 21) then
    digits_str (take (Z.to_nat n) ds) ++ "."%char :: digits_str (drop (Z.to_nat n) ds)
  else if (-6 <? n) && (n <=? 0) then
    "0"%char :: "."%char :: zeros (- n) ++ digits_str ds
  else
    let ex := "e"%char :: (if 0 <? n - 1 then "+"%char else "-"%char) :: Z_str (Z.abs (n - 1)) in
    match ds with
    | [] => []
    | [d] => digit_char d :: ex
    | d :: rest => digit_char d :: "."%char :: digits_str rest ++ ex
    end.

Definition toString_chars (x : Number) : list ascii :=
  match x with
  | NaN => chars "NaN"
  | Zero _ => chars "0"
  | Infinity s => (if s then ["-"%char] else []) ++ chars "Infinity"
  | Finite s _ _ =>
      let '(ds, n) := decimal_of x in
      (if s then ["-"%char] else []) ++ render ds n
  end.

Definition Number_toString (x : Number) : string :=
  string_of_list_ascii (toString_chars x).

(** *** Reading numbers: [StringToNumber] and [parseFloat] *)

(** What a decimal literal denotes: an infinity or [M * 10^E]. *)
Inductive decimal : Type :=
| DInfinity
| DNum (M E : Z).

(** Reads decimal digits: the value accumulated, how many were read, and
    what follows them. *)
Fixpoint scan_digits (s : list ascii) (acc cnt : Z) : Z * Z * list ascii :=
  match s with
  | c :: rest =>
      if is_digit c then scan_digits rest (10 * acc + digit_val c) (cnt + 1)
      else (acc, cnt, s)
  | [] => (acc, cnt, [])
  end.

(** An exponent part: [e] or [E], an optional sign, at least one digit. *)
Definition scan_exponent (s : list ascii) : option (Z * list ascii) :=
  match s with
  | c :: rest =>
      if Ascii.eqb c "e"%char || Ascii.eqb c "E"%char then
        let '(sg, rest1) :=
          match rest with
          | d :: r => if Ascii.eqb d "+"%char then (1, r)
                      else if Ascii.eqb d "-"%char then (-1, r) else (1, rest)
          | [] => (1, rest)
          end in
        let '(v, cnt, rest2) := scan_digits rest1 0 0 in
        if cnt =? 0 then None else Some (sg * v, rest2)
      else None
  | [] => None
  end.

Fixpoint strip_prefix (p s : list ascii) : option (list ascii) :=
  match p, s with
  | [], _ => Some s
  | a :: p', b :: s' => if Ascii.eqb a b then strip_prefix p' s' else None
  | _ :: _, [] => None
  end.

(** The longest prefix that is a [StrUnsignedDecimalLiteral], with what
    follows it. *)
Definition scan_unsigned (s : list ascii) : option (decimal * list ascii) :=
  match strip_prefix (chars "Infinity") s with
  | Some rest => Some (DInfinity, rest)
  | None =>
      let '(iv, ic, r1) := scan_digits s 0 0 in
      let '(fv, fc, r2, dot) :=
        match r1 with
        | c :: r =>
            if Ascii.eqb c "."%char then
              let '(fv, fc, r2) := scan_digits r iv 0 in (fv, fc, r2, true)
            else (iv, 0, r1, false)
        | [] => (iv, 0, r1, false)
        end in
      if (ic =? 0) && (fc =? 0) then None
      else
        match scan_exponent r2 with
        | Some (ex, r3) => Some (DNum fv (ex - fc), r3)
        | None => Some (DNum fv (- fc), r2)
        end
  end.

(** The longest prefix that is a [StrDecimalLiteral]: the sign, the literal
    and what follows it. *)
Definition scan_signed (s : list ascii) : option (bool * decimal * list ascii) :=
  let '(sg, body) :=
    match s with
    | c :: r => if Ascii.eqb c "-"%char then (true, r)
                else if Ascii.eqb c "+"%char then (false, r) else (false, s)
    | [] => (false, s)
    end in
  match scan_unsigned body with
  | Some (d, rest) => Some (sg, d, rest)
  | None => None
  end.

(** The Number value of a literal (correctly rounded). *)
Definition decimal_value (sg : bool) (d : decimal) : Number :=
  match d with
  | DInfinity => Infinity sg
  | DNum M E => round_mag sg (inject_Z M * pow10 E)
  end.

Fixpoint trim_start (s : list ascii) : list ascii :=
  match s with
  | c :: rest => if is_space c then trim_start rest else s
  | [] => []
  end.

Definition trim (s : list ascii) : list ascii :=
  rev (trim_start (rev (trim_start s))).

(** Digits in radix 2, 8 or 16. *)
Definition radix_digit (radix : Z) (c : ascii) : option Z :=
  let n := Z.of_nat (nat_of_ascii c) in
  let d := if (48 <=? n) && (n <=? 57) then n - 48
           else if (97 <=? n) && (n <=? 102) then n - 87
           else if (65 <=? n) && (n <=? 70) then n - 55
           else 99 in
  if d <? radix then Some d else None.

Fixpoint scan_radix (radix : Z) (s : list ascii) (acc : Z) : option Z :=
  match s with
  | [] => Some acc
  | c :: rest =>
      match radix_digit radix c with
      | Some d => scan_radix radix rest (radix * acc + d)
      | None => None
      end
  end.

Definition non_decimal (s : list ascii) : option Z :=
  match s with
  | z :: r :: d :: rest =>
      if Ascii.eqb z "0"%char then
        let radix :=
          if Ascii.eqb r "x"%char || Ascii.eqb r "X"%char then 16
          else if Ascii.eqb r "o"%char || Ascii.eqb r "O"%char then 8
          else if Ascii.eqb r "b"%char || Ascii.eqb r "B"%char then 2 else 0 in
        if radix =? 0 then None else scan_radix radix (d :: rest) 0
      else None
  | _ => None
  end.

(** [StringToNumber]: the whole string, white space trimmed, must be a
    numeric literal; the empty string is [+0]. *)
Definition StringToNumber_chars (s : list ascii) : Number :=
  let t := trim s in
  match t with
  | [] => Zero false
  | _ =>
      match non_decimal t with
      | Some n => of_Z n
      | None =>
          match scan_signed t with
          | Some (sg, d, []) => decimal_value sg d
          | _ => NaN
          end
      end
  end.

Definition StringToNumber (s : string) : Number := StringToNumber_chars (chars s).

(** [parseFloat]: the longest prefix of the string, leading white space
    trimmed, that is a decimal literal; NaN when there is none. *)
Definition parseFloat (s : string) : Number :=
  match scan_signed (trim_start (chars s)) with
  | Some (sg, d, _) => decimal_value sg d
  | None => NaN
  end.

End JSString.

(** ** The program *)

Module App.
Import JSNumber JSString.

Local Open Scope string_scope.

(** *** DOM references and what the program does to them *)

(** The three inputs, [inp_cadence], [inp_driveTime], [inp_recoverTime];
    their [id] is the name of the pace setting they edit. *)
Inductive Input : Type := inp_cadence | inp_driveTime | inp_recoverTime.

Definition id (i : Input) : string :=
  match i with
  | inp_cadence => "cadence"
  | inp_driveTime => "driveTime"
  | inp_recoverTime => "recoverTime"
  end.

Inductive Audio : Type := audio_countdown | audio_catch | audio_finish.

(** The writes to the page, in the order the program makes them. *)
Inductive Effect : Type :=
| ButtonText (text : string)            (* btn_startStop.textContent = text *)
| InputValue (i : Input) (v : string)   (* inp.value = v *)
| AudioRewind (a : Audio)               (* a.currentTime = 0 *)
| AudioPlay (a : Audio)                 (* a.play() *)
| AudioPause (a : Audio)                (* a.pause() *)
| ClassAdd (c : string)                 (* elem_rower.classList.add(c) *)
| ClassRemove (cs : list string)        (* elem_rower.classList.remove(...cs) *)
| IterationDuration (v : string)        (* the --iterationDuration property *)
| Keyframes (ratio : string)            (* style_animation.innerHTML, at ratio% *)
| ConsoleError (msg : string).          (* console.error(msg) *)

(** *** Variables *)

(** [paceSettings]: its three keys are created, in this order, by the call
    of [resetInputs] that ends the script, and no key is added or removed
    afterwards. *)
Record PaceSettings : Type := {
  cadence : Number;
  driveTime : Number;
  recoverTime : Number
}.

Definition paceSettings_keys : list string := ["cadence"; "driveTime"; "recoverTime"].


Definition set_setting (i : Input) (v : Number) (p : PaceSettings) : PaceSettings :=
  match i with
  | inp_cadence => {| cadence := v; driveTime := driveTime p; recoverTime := recoverTime p |}
  | inp_driveTime => {| cadence := cadence p; driveTime := v; recoverTime := recoverTime p |}
  | inp_recoverTime => {| cadence := cadence p; driveTime := driveTime p; recoverTime := v |}
  end.

(** Where an [async] function is suspended in a [wait]: what runs when the
    promise of that [wait] resolves. *)
Inductive Resume : Type :=
| startAnimation_1      (* startAnimation, after the countdown *)
| playSounds_1          (* playSounds, after the drive *)
| playSounds_2          (* playSounds, after the recover *)
| changeColors_1        (* changeColors, after the drive *)
| showCatchColor_1      (* showCatchColor, after colorChangeDuration *)
| showFinishColor_1.    (* showFinishColor, after colorChangeDuration *)

(** A pending timeout of the browser: [setTimeout(resolve, ms)]. *)
Record Timer : Type := {
  handle : nat;
  due : Z;
  resolve : Resume
}.

Record State : Type := {
  paceSettings : PaceSettings;
  previousSettings : list string;
  animationPlaying : bool;
  timeoutIDs : gmap string nat;
  (* the browser: the time in ms, the pending timeouts, the next handle *)
  clock : Z;
  timers : list Timer;
  next_handle : nat;
  (* the page *)
  effects : list Effect
}.

Definition with_paceSettings (p : PaceSettings) (st : State) : State :=
  {| paceSettings := p; previousSettings := previousSettings st;
     animationPlaying := animationPlaying st; timeoutIDs := timeoutIDs st;
     clock := clock st; timers := timers st; next_handle := next_handle st;
     effects := effects st |}.

Definition with_previousSettings (l : list string) (st : State) : State :=
  {| paceSettings := paceSettings st; previousSettings := l;
     animationPlaying := animationPlaying st; timeoutIDs := timeoutIDs st;
     clock := clock st; timers := timers st; next_handle := next_handle st;
     effects := effects st |}.

Definition with_animationPlaying (b : bool) (st : State) : State :=
  {| paceSettings := paceSettings st; previousSettings := previousSettings st;
     animationPlaying := b; timeoutIDs := timeoutIDs st;
     clock := clock st; timers := timers st; next_handle := next_handle st;
     effects := effects st |}.

Definition with_timers (ts : list Timer) (st : State) : State :=
  {| paceSettings := paceSettings st; previousSettings := previousSettings st;
     animationPlaying := animationPlaying st; timeoutIDs := timeoutIDs st;
     clock := clock st; timers := ts; next_handle := next_handle st;
     effects := effects st |}.

Definition with_clock (t : Z) (st : State) : State :=
  {| paceSettings := paceSettings st; previousSettings := previousSettings st;
     animationPlaying := animationPlaying st; timeoutIDs := timeoutIDs st;
     clock := t; timers := timers st; next_handle := next_handle st;
     effects := effects st |}.

Definition emit (e : Effect) (st : State) : State :=
  {| paceSettings := paceSettings st; previousSettings := previousSettings st;
     animationPlaying := animationPlaying st; timeoutIDs := timeoutIDs st;
     clock := clock st; timers := timers st; next_handle := next_handle st;
     effects := effects st ++ [e] |}.

Definition colorChangeDuration : Number := num_250.
Definition countdownDuration : Number := num_3300.

(** How a call ends: normally, or by an exception. *)
Inductive Completion : Type :=
| Normal
| Throw (msg : string).

(** *** Helper functions *)

(** [round(number, decimalPlaces)]:
    [Number(Math.round(number + "e" + decimalPlaces) + "e-" + decimalPlaces)]. *)
Definition round (number decimalPlaces : Number) : Number :=
  StringToNumber
    ((Number_toString
       (Math_round
          (StringToNumber
             ((Number_toString number +:+ "e") +:+ Number_toString decimalPlaces)))
      +:+ "e-") +:+ Number_toString decimalPlaces).

(** The delay of [setTimeout]: its argument converted to a 32-bit integer,
    a negative delay counting as 0. *)
Definition timeout_delay (ms : Number) : Z :=
  match ms with
  | Finite s _ _ =>
      let n := Qfloor (mag ms) in
      let i := (if s then - n else n) mod 2 ^ 32 in
      Z.max 0 (if (i <? 2 ^ 31)%Z then i else i - 2 ^ 32)
  | _ => 0
  end.

(** [wait(ms, id)], for a caller that continues at [k] once the promise is
    resolved: [timeoutIDs[id] = setTimeout(resolve, ms)]. *)
Definition wait (ms : Number) (id : string) (k : Resume) (st : State) : State :=
  let h := next_handle st in
  {| paceSettings := paceSettings st; previousSettings := previousSettings st;
     animationPlaying := animationPlaying st;
     timeoutIDs := <[id := h]> (timeoutIDs st);
     clock := clock st;
     timers := timers st ++ [{| handle := h; due := clock st + timeout_delay ms; resolve := k |}];
     next_handle := S h;
     effects := effects st |}.

Definition clearTimeout (h : nat) (st : State) : State :=
  with_timers (filter (fun t => handle t ≠ h) (timers st)) st.

(** *** Handle animations *)

Definition updateAnimationCode (st : State) : State :=
  let p := paceSettings st in
  let seconds := div num_60 (cadence p) in
  let st := emit (IterationDuration (Number_toString seconds +:+ "s")) st in
  let ratio := div (mul num_100 (driveTime p)) (add (driveTime p) (recoverTime p)) in
  emit (Keyframes (Number_toString ratio)) st.

Definition playCountdownSound (st : State) : State :=
  emit (AudioPlay audio_countdown) (emit (AudioRewind audio_countdown) st).

Definition playCatchSound (st : State) : State :=
  let st := emit (AudioPause audio_finish) st in
  let st := emit (AudioRewind audio_catch) st in
  emit (AudioPlay audio_catch) st.

Definition playRecoverSound (st : State) : State :=
  let st := emit (AudioPause audio_catch) st in
  let st := emit (AudioRewind audio_finish) st in
  emit (AudioPlay audio_finish) st.

Definition pauseAllAudio (st : State) : State :=
  let st := emit (AudioPause audio_countdown) st in
  let st := emit (AudioPause audio_catch) st in
  emit (AudioPause audio_finish) st.

(** The part of each [async] function that runs when it is called, up to
    its first [await]. *)
Definition playSounds (st : State) : State :=
  let st := playCatchSound st in
  wait (mul (driveTime (paceSettings st)) num_1000) "sounds" playSounds_1 st.

Definition showCatchColor (st : State) : State :=
  let st := emit (ClassAdd "catch") st in
  wait colorChangeDuration "catchColor" showCatchColor_1 st.

Definition showFinishColor (st : State) : State :=
  let st := emit (ClassAdd "finish") st in
  wait colorChangeDuration "finishColor" showFinishColor_1 st.

Definition changeColors (st : State) : State :=
  let st := showCatchColor st in
  wait (mul (driveTime (paceSettings st)) num_1000) "colorChange" changeColors_1 st.

Definition triggerAnimationIteration (st : State) : State :=
  let st := playSounds st in
  changeColors st.

Definition startAnimation (st : State) : State :=
  let st := with_animationPlaying true st in
  let st := emit (ButtonText "Stop") st in
  let st := playCountdownSound st in
  wait countdownDuration "countdown" startAnimation_1 st.

(** The rest of each [async] function, from the [await] where it was
    suspended. *)
Definition resume (k : Resume) (st : State) : State :=
  match k with
  | startAnimation_1 =>
      let st := emit (ClassAdd "animating") st in
      triggerAnimationIteration st
  | playSounds_1 =>
      let st := playRecoverSound st in
      wait (mul (recoverTime (paceSettings st)) num_1000) "sounds" playSounds_2 st
  | playSounds_2 => st
  | changeColors_1 => showFinishColor st
  | showCatchColor_1 => emit (ClassRemove ["catch"]) st
  | showFinishColor_1 => emit (ClassRemove ["finish"]) st
  end.

(** [Object.values(timeoutIDs).forEach(clearTimeout)] and the rest. *)
Definition stopAnimation (st : State) : State :=
  let st := emit (ButtonText "Start") st in
  let st := with_animationPlaying false st in
  let st := foldr clearTimeout st (map snd (map_to_list (timeoutIDs st))) in
  let st := emit (ClassRemove ["recover"; "drive"; "finish"; "catch"; "animating"]) st in
  pauseAllAudio st.

Definition toggleStartStop (st : State) : State :=
  if animationPlaying st then stopAnimation st
  else
    let p := paceSettings st in
    if equals (cadence p) num_0 || equals (driveTime p) num_0
       || equals (recoverTime p) num_0
    then st
    else startAnimation st.

(** *** Handle inputs *)

Definition resetInputs (st : State) : State :=
  let st := stopAnimation st in
  let st := emit (InputValue inp_cadence "") st in
  let st := emit (InputValue inp_driveTime "") st in
  let st := emit (InputValue inp_recoverTime "") st in
  let st := with_paceSettings
              {| cadence := num_0; driveTime := num_0; recoverTime := num_0 |} st in
  with_previousSettings [""; ""] st.

Definition addToPreviousSettings (setting : string) (st : State) : State :=
  if decide (previousSettings st !! 1%nat = Some setting) then st
  else
    let l := (previousSettings st ++ [setting])%list in   (* push *)
    with_previousSettings (tail l) st.             (* shift *)

(** [undefined] is [None]. *)
Definition findRemainingInput (st : State) : option string :=
  head (filter (fun key => key ∉ previousSettings st) paceSettings_keys).

Definition recalculateCadence (st : State) : Completion * State :=
  let p := paceSettings st in
  let iterationDuration := add (driveTime p) (recoverTime p) in
  let cadence := round (div num_60 iterationDuration) num_2 in
  if lt cadence num_0 then
    (Throw "Calculated invalid cadence", resetInputs st)
  else
    let st := with_paceSettings (set_setting inp_cadence cadence p) st in
    (Normal, emit (InputValue inp_cadence (Number_toString cadence)) st).

Definition recalculateDriveTime (st : State) : Completion * State :=
  let p := paceSettings st in
  let iterationDuration := div num_60 (cadence p) in
  let driveTime := round (sub iterationDuration (recoverTime p)) num_2 in
  if lt driveTime num_0 then
    (Throw "Calculated invalid drive time", resetInputs st)
  else
    let st := with_paceSettings (set_setting inp_driveTime driveTime p) st in
    (Normal, emit (InputValue inp_driveTime (Number_toString driveTime)) st).

Definition recalculateRecoverTime (st : State) : Completion * State :=
  let p := paceSettings st in
  let iterationDuration := div num_60 (cadence p) in
  let recoverTime := round (sub iterationDuration (driveTime p)) num_2 in
  if lt recoverTime num_0 then
    (Throw "Calculated invalid recover time", resetInputs st)
  else
    let st := with_paceSettings (set_setting inp_recoverTime recoverTime p) st in
    (Normal, emit (InputValue inp_recoverTime (Number_toString recoverTime)) st).

Definition paceSettingUpdateFunctions : list (string * (State -> Completion * State)) :=
  [ ("cadence", recalculateCadence);
    ("driveTime", recalculateDriveTime);
    ("recoverTime", recalculateRecoverTime) ].

Definition hasOwnProperty {A} (o : list (string * A)) (key : string) : option A :=
  snd <$> List.find (fun kv => String.eqb (fst kv) key) o.

(** The string of a value that is a string or [undefined]. *)
Definition ToString (v : option string) : string :=
  match v with
  | Some s => s
  | None => "undefined"
  end.

Definition updatePaceSetting (setting : option string) (st : State) : Completion * State :=
  match hasOwnProperty paceSettingUpdateFunctions (ToString setting) with
  | None =>
      (Normal, emit (ConsoleError (ToString setting +:+ " is not a valid setting.")) st)
  | Some recalculate => recalculate st
  end.

(** The handler of the [input] event of the input [this], whose [value] the
    user has just changed. *)
Definition inputUpdated (this : Input) (value : string) (st : State) : Completion * State :=
  let st := stopAnimation st in
  let thisSetting := id this in
  let st := addToPreviousSettings thisSetting st in
  let st := with_paceSettings
              (set_setting this (parseFloat value) (paceSettings st)) st in
  match previousSettings st !! 0%nat with
  | None | Some "" => (Normal, st)
  | Some _ =>
      let settingToUpdate := findRemainingInput st in
      match updatePaceSetting settingToUpdate st with
      | (Normal, st) => (Normal, updateAnimationCode st)
      | (Throw msg, st) => (Throw msg, st)
      end
  end.

(** *** The page at work *)

(** The pending timeout that fires first. *)
Definition earlier (a b : Timer) : bool :=
  (due a <? due b)%Z || ((due a =? due b)%Z && (handle a <=? handle b)%nat).

Definition next_timer (ts : list Timer) : option Timer :=
  foldr (fun t best =>
           match best with
           | Some b => if earlier t b then Some t else Some b
           | None => Some t
           end) None ts.

(** An upper bound on the number of timeouts that firing [k] can lead to. *)
Definition weight (k : Resume) : nat :=
  match k with
  | startAnimation_1 => 6
  | playSounds_1 | changeColors_1 => 2
  | playSounds_2 | showCatchColor_1 | showFinishColor_1 => 1
  end.

Definition budget (st : State) : nat :=
  list_sum (map (fun t => weight (resolve t)) (timers st)).

(** Fires, in order, the timeouts due by time [t]. *)
Fixpoint run_timers (fuel : nat) (t : Z) (st : State) : State :=
  match fuel with
  | O => st
  | S fuel' =>
      match next_timer (timers st) with
      | Some tm =>
          if (due tm <=? t)%Z then
            let st := clearTimeout (handle tm) st in
            let st := with_clock (Z.max (clock st) (due tm)) st in
            run_timers fuel' t (resume (resolve tm) st)
          else st
      | None => st
      end
  end.

Definition elapse (ms : Z) (st : State) : State :=
  let t := clock st + Z.max 0 ms in
  with_clock t (run_timers (budget st) t st).

(** What happens to the page: clicks, edits, the [animationiteration] event
    of the rower, and time passing. *)
Inductive Event : Type :=
| Click_startStop
| Click_reset
| Edit (i : Input) (value : string)
| AnimationIteration
| Elapse (ms : Z).

(** An exception that leaves a handler is reported by the browser and the
    page goes on. *)
Definition dispatch (ev : Event) (st : State) : State :=
  match ev with
  | Click_startStop => toggleStartStop st
  | Click_reset => resetInputs st
  | Edit i value => snd (inputUpdated i value st)
  | AnimationIteration => triggerAnimationIteration st
  | Elapse ms => elapse ms st
  end.

Definition run (evs : list Event) (st : State) : State :=
  fold_left (fun st ev => dispatch ev st) evs st.

(** The state once the script has been loaded: the variables as declared
    (a read of a key that [paceSettings] does not have yet gives [undefined],
    NaN in arithmetic), then [resetInputs()]. *)
Definition declared : State :=
  {| paceSettings := {| cadence := NaN; driveTime := NaN; recoverTime := NaN |};
     previousSettings := [""; ""];
     animationPlaying := false;
     timeoutIDs := ∅;
     clock := 0; timers := []; next_handle := 1;
     effects := [] |}.

Definition loaded : State := resetInputs declared.

End App.

(** * Properties *)

(** ** Numbers: NaN, powers of two, and rounding *)

Module NumberFacts.
Import JSNumber.

Local Open Scope Q_scope.





Lemma div_NaN_l x : div NaN x = NaN.
Proof. reflexivity. Qed.



(** *** Powers of two and the binary logarithm *)

Lemma pow2_pos e : 0 < 2 ^ e.
Proof. apply Qpower_0_lt. reflexivity. Qed.

Lemma pow2_add a b : 2 ^ (a + b) == 2 ^ a * 2 ^ b.
Proof. apply Qpower_plus. discriminate. Qed.

Lemma pow2_le a b : (a <= b)%Z -> 2 ^ a <= 2 ^ b.
Proof. intros H. apply Qpower_le_compat_l; [exact H | discriminate]. Qed.

Lemma pow2_lt a b : (a < b)%Z -> 2 ^ a < 2 ^ b.
Proof. intros H. apply Qpower_lt_compat_l; [exact H | reflexivity]. Qed.

Lemma pow2_lt_inv a b : 2 ^ a < 2 ^ b -> (a < b)%Z.
Proof. intros H. apply (Qpower_lt_compat_l_inv 2); [exact H | reflexivity]. Qed.

Lemma pow2_Z n : (0 <= n)%Z -> inject_Z (2 ^ n) == 2 ^ n.
Proof. intros H. apply (Zpower_Qpower 2 n H). Qed.

Lemma pow2_succ a : 2 ^ (a + 1) == 2 * 2 ^ a.
Proof. rewrite pow2_add. change (2 ^ 1) with 2. ring. Qed.

Lemma Qnum_den q : q * inject_Z (Zpos (Qden q)) == inject_Z (Qnum q).
Proof.
  destruct q as [a b]. unfold Qeq, Qmult, inject_Z. simpl. lia.
Qed.

Lemma Qnum_pos q : 0 < q -> (0 < Qnum q)%Z.
Proof. destruct q as [a b]. unfold Qlt. simpl. lia. Qed.

(** [ilog2 q] is the exponent of the binade of [q]. *)
Lemma ilog2_spec q : 0 < q -> 2 ^ ilog2 q <= q /\ q < 2 ^ (ilog2 q + 1).
Proof.
  intros Hq. pose proof (Qnum_pos q Hq) as Ha.
  pose proof (Qnum_den q) as E.
  set (a := Qnum q) in *. set (b := Zpos (Qden q)) in *.
  assert (Hb : (0 < b)%Z) by (unfold b; lia).
  destruct (Z.log2_spec a Ha) as [A1 A2].
  destruct (Z.log2_spec b Hb) as [B1 B2].
  pose proof (Z.log2_nonneg a) as La. pose proof (Z.log2_nonneg b) as Lb.
  rewrite Zle_Qle in A1, B1. rewrite Zlt_Qlt in A2, B2.
  rewrite pow2_Z in A1, A2, B1, B2 by lia.
  replace (Z.succ (Z.log2 a)) with (Z.log2 a + 1)%Z in A2 by lia.
  replace (Z.succ (Z.log2 b)) with (Z.log2 b + 1)%Z in B2 by lia.
  unfold ilog2. fold a b.
  set (k := (Z.log2 a - Z.log2 b)%Z).
  assert (K1 : 2 ^ (k + 1) * 2 ^ Z.log2 b == 2 ^ (Z.log2 a + 1)).
  { rewrite <- pow2_add. unfold k.
    replace (Z.log2 a - Z.log2 b + 1 + Z.log2 b)%Z with (Z.log2 a + 1)%Z by lia.
    reflexivity. }
  assert (K2 : 2 ^ (k - 1) * 2 ^ (Z.log2 b + 1) == 2 ^ Z.log2 a).
  { rewrite <- pow2_add. unfold k.
    replace (Z.log2 a - Z.log2 b - 1 + (Z.log2 b + 1))%Z with (Z.log2 a) by lia.
    reflexivity. }
  pose proof (pow2_pos (k + 1)) as P1. pose proof (pow2_pos (k - 1)) as P2.
  pose proof (pow2_pos (Z.log2 b)) as P3.
  assert (HB : 0 < inject_Z b) by (rewrite <- (Zlt_Qlt 0); exact Hb).
  assert (U : q < 2 ^ (k + 1)).
  { revert E A2 B1 K1 P1 P3 Hq HB.
    generalize (2 ^ (k + 1)) (2 ^ Z.log2 b) (2 ^ (Z.log2 a + 1)) (inject_Z a) (inject_Z b).
    intros K PB PA A B. intros.
    assert (H : K * PB <= K * B) by (apply Qmult_le_l; assumption).
    apply (Qmult_lt_r _ _ B HB). lra. }
  assert (D : 2 ^ (k - 1) < q).
  { revert E A1 B2 K2 P2 P3 Hq HB.
    generalize (2 ^ (k - 1)) (2 ^ (Z.log2 b + 1)) (2 ^ Z.log2 a) (inject_Z a) (inject_Z b).
    intros K PB PA A B. intros.
    assert (H : K * B < K * PB) by (apply Qmult_lt_l; assumption).
    apply (Qmult_lt_r _ _ B HB). lra. }
  destruct (Qle_bool (2 ^ k) q) eqn:Hk.
  - apply Qle_bool_iff in Hk. split; [exact Hk | exact U].
  - assert (Hk' : q < 2 ^ k).
    { apply Qnot_le_lt. intros H. apply Qle_bool_iff in H. congruence. }
    split; [apply Qlt_le_weak, D|].
    replace (k - 1 + 1)%Z with k by lia. exact Hk'.
Qed.

Lemma ilog2_unique q l : 2 ^ l <= q -> q < 2 ^ (l + 1) -> ilog2 q = l.
Proof.
  intros H1 H2.
  assert (Hq : 0 < q) by (pose proof (pow2_pos l); lra).
  destruct (ilog2_spec q Hq) as [S1 S2].
  assert (A : (l < ilog2 q + 1)%Z) by (apply pow2_lt_inv; lra).
  assert (B : (ilog2 q < l + 1)%Z) by (apply pow2_lt_inv; lra).
  lia.
Qed.

Lemma ilog2_comp q1 q2 : q1 == q2 -> 0 < q1 -> ilog2 q1 = ilog2 q2.
Proof.
  intros E H. destruct (ilog2_spec q1 H) as [S1 S2].
  symmetry. apply ilog2_unique; rewrite <- E; assumption.
Qed.

(** ** Rounding to the nearest integer *)

Lemma rne_bounds r : inject_Z (rne r) - (1 # 2) <= r /\ r <= inject_Z (rne r) + (1 # 2).
Proof.
  unfold rne. pose proof (Qfloor_le r) as H1. pose proof (Qlt_floor r) as H2.
  rewrite inject_Z_plus in H2. change (inject_Z 1) with 1 in H2.
  destruct (Qcompare_spec (r - inject_Z (Qfloor r)) (1 # 2)) as [E|E|E].
  - destruct (Z.even (Qfloor r)); [|rewrite inject_Z_plus; change (inject_Z 1) with 1]; lra.
  - lra.
  - rewrite inject_Z_plus; change (inject_Z 1) with 1; lra.
Qed.

Lemma rne_comp r1 r2 : r1 == r2 -> rne r1 = rne r2.
Proof.
  intros E. unfold rne. rewrite (Qfloor_comp _ _ E).
  assert (H : r1 - inject_Z (Qfloor r2) == r2 - inject_Z (Qfloor r2)) by lra.
  now rewrite (Qcompare_comp _ _ H (1 # 2) (1 # 2) (Qeq_refl _)).
Qed.

Lemma rne_Z n : rne (inject_Z n) = n.
Proof.
  unfold rne. rewrite Qfloor_Z.
  destruct (Qcompare_spec (inject_Z n - inject_Z n) (1 # 2)) as [E|E|E];
    [lra | reflexivity | lra].
Qed.

Lemma rne_ge r n : inject_Z n <= r -> (n <= rne r)%Z.
Proof.
  intros H. apply Qfloor_resp_le in H. rewrite Qfloor_Z in H.
  unfold rne. destruct (_ ?= _); [destruct (Z.even _)| |]; lia.
Qed.

Lemma rne_le r n : r <= inject_Z n -> (rne r <= n)%Z.
Proof.
  intros H. destruct (rne_bounds r) as [B1 B2].
  assert (inject_Z (rne r) < inject_Z (n + 1)).
  { rewrite inject_Z_plus. change (inject_Z 1) with 1. lra. }
  rewrite <- Zlt_Qlt in H0. lia.
Qed.

(** ** Rounding to the nearest Number *)

Lemma round_mag_nonpos s q : q <= 0 -> round_mag s q = Zero s.
Proof.
  intros H. unfold round_mag. apply Qle_bool_iff in H. now rewrite H.
Qed.

Lemma Qle_bool_false x y : Qle_bool x y = false <-> y < x.
Proof.
  split; intros H.
  - apply Qnot_le_lt. intros H'. apply Qle_bool_iff in H'. congruence.
  - destruct (Qle_bool x y) eqn:E; [|reflexivity].
    apply Qle_bool_iff in E. lra.
Qed.

Lemma round_mag_comp s q1 q2 : q1 == q2 -> round_mag s q1 = round_mag s q2.
Proof.
  intros E. destruct (Qlt_le_dec 0 q1) as [H|H].
  - unfold round_mag. rewrite <- (ilog2_comp q1 q2 E H).
    assert (E' : q1 / 2 ^ Z.max (ilog2 q1 - 52) emin == q2 / 2 ^ Z.max (ilog2 q1 - 52) emin)
      by (unfold Qdiv; apply Qmult_comp; [exact E | reflexivity]).
    rewrite <- (rne_comp _ _ E').
    assert (B : Qle_bool q1 0 = Qle_bool q2 0).
    { apply (proj2 (Qle_bool_false q1 0)) in H as H1. rewrite H1.
      symmetry. apply Qle_bool_false. lra. }
    now rewrite B.
  - rewrite !round_mag_nonpos; [reflexivity | lra | exact H].
Qed.

(** The exponent and the significand that [round_mag] computes. *)
Definition rexp (q : Q) : Z := Z.max (ilog2 q - 52) emin.
Definition rsig (q : Q) : Z := rne (q / 2 ^ rexp q).

Lemma scaled_back q e : q / 2 ^ e * 2 ^ e == q.
Proof. field. pose proof (pow2_pos e). lra. Qed.

Lemma rsig_error q :
  inject_Z (rsig q) * 2 ^ rexp q - 2 ^ (rexp q - 1) <= q
  /\ q <= inject_Z (rsig q) * 2 ^ rexp q + 2 ^ (rexp q - 1).
Proof.
  unfold rsig. destruct (rne_bounds (q / 2 ^ rexp q)) as [B1 B2].
  pose proof (scaled_back q (rexp q)) as E.
  pose proof (pow2_pos (rexp q)) as P.
  assert (H : 2 ^ (rexp q - 1) * 2 == 2 ^ rexp q).
  { replace (rexp q) with (rexp q - 1 + 1)%Z at 2 by lia.
    rewrite pow2_succ. ring. }
  set (h := 2 ^ (rexp q - 1)) in *. set (p := 2 ^ rexp q) in *.
  set (r := q / p) in *. set (m := inject_Z (rne r)) in *.
  clearbody m. clearbody r. clearbody p. clearbody h.
  assert (A1 : (m - (1 # 2)) * p <= r * p) by (apply Qmult_le_compat_r; lra).
  assert (A2 : r * p <= (m + (1 # 2)) * p) by (apply Qmult_le_compat_r; lra).
  split; lra.
Qed.

Lemma rsig_upper q : 0 < q -> (rsig q <= 2 ^ 53)%Z.
Proof.
  intros Hq. unfold rsig. apply rne_le.
  destruct (ilog2_spec q Hq) as [_ U].
  rewrite pow2_Z by lia.
  apply (Qmult_le_r _ _ (2 ^ rexp q) (pow2_pos _)).
  rewrite scaled_back, <- pow2_add.
  apply Qlt_le_weak. eapply Qlt_le_trans; [exact U|].
  apply pow2_le. unfold rexp. lia.
Qed.

Lemma rsig_lower q : 0 < q -> (emin <= ilog2 q - 52)%Z -> (2 ^ 52 <= rsig q)%Z.
Proof.
  intros Hq He. unfold rsig. apply rne_ge.
  destruct (ilog2_spec q Hq) as [L _].
  rewrite pow2_Z by lia.
  apply (Qmult_le_r _ _ (2 ^ rexp q) (pow2_pos _)).
  rewrite scaled_back, <- pow2_add.
  eapply Qle_trans; [|exact L].
  apply pow2_le. unfold rexp. lia.
Qed.

Lemma rsig_nonneg q : 0 < q -> (0 <= rsig q)%Z.
Proof.
  intros Hq. unfold rsig. apply rne_ge. change (inject_Z 0) with 0.
  apply Qlt_le_weak, Qlt_shift_div_l; [apply pow2_pos | lra].
Qed.

Lemma round_mag_unfold s q :
  0 < q ->
  round_mag s q =
  if (rsig q =? 0)%Z then Zero s
  else if (rsig q =? 2 ^ 53)%Z then
         if (rexp q + 1 >? emax)%Z then Infinity s else Finite s (2 ^ 52) (rexp q + 1)
       else
         if (rexp q >? emax)%Z then Infinity s else Finite s (Z.to_pos (rsig q)) (rexp q).
Proof.
  intros Hq. unfold round_mag. fold (rexp q). fold (rsig q).
  apply (proj2 (Qle_bool_false q 0)) in Hq. rewrite Hq. simpl orb.
  destruct (rsig q =? 0)%Z; [reflexivity|].
  destruct (rsig q =? 2 ^ 53)%Z eqn:E; reflexivity.
Qed.

(** What a finite result of [round_mag] says about the number rounded: it is
    within half a unit in the last place. *)
Lemma round_mag_Finite s q t m e :
  round_mag s q = Finite t m e ->
  t = s /\ 0 < q /\ (emin <= e <= emax)%Z /\ (Zpos m < 2 ^ 53)%Z
  /\ inject_Z (Zpos m) * 2 ^ e - 2 ^ (e - 1) <= q
  /\ q <= inject_Z (Zpos m) * 2 ^ e + 2 ^ (e - 1).
Proof.
  intros H.
  destruct (Qlt_le_dec 0 q) as [Hq|Hq];
    [|rewrite round_mag_nonpos in H by exact Hq; discriminate H].
  rewrite (round_mag_unfold s q Hq) in H.
  pose proof (rsig_error q) as [E1 E2].
  pose proof (rsig_upper q Hq) as U. pose proof (rsig_nonneg q Hq) as N.
  assert (Hmin : (emin <= rexp q)%Z) by (unfold rexp; lia).
  destruct (rsig q =? 0)%Z eqn:Z0; [discriminate H|]. apply Z.eqb_neq in Z0.
  destruct (rsig q =? 2 ^ 53)%Z eqn:Z53.
  - apply Z.eqb_eq in Z53. destruct (rexp q + 1 >? emax)%Z eqn:G; [discriminate H|].
    injection H as <- <- <-. rewrite Z53 in E1, E2.
    assert (P : inject_Z (Z.pos (2 ^ 52)) * 2 ^ (rexp q + 1) == inject_Z (2 ^ 53) * 2 ^ rexp q).
    { rewrite pow2_succ. change (inject_Z (Z.pos (2 ^ 52))) with (inject_Z (2 ^ 52)).
      rewrite !pow2_Z by lia. change (2 ^ 53) with (2 * 2 ^ 52). ring. }
    assert (P' : 2 ^ (rexp q - 1) <= 2 ^ (rexp q + 1 - 1)) by (apply pow2_le; lia).
    repeat split; try lia; try assumption; lra.
  - apply Z.eqb_neq in Z53. destruct (rexp q >? emax)%Z eqn:G; [discriminate H|].
    injection H as <- <- <-. rewrite Z2Pos.id by lia.
    repeat split; try lia; assumption.
Qed.

(** In the normal range the result is finite with a full significand. *)
Lemma round_mag_normal s q :
  2 ^ (-1022) <= q -> q <= 2 ^ 1000 ->
  exists m e, round_mag s q = Finite s m e /\ (2 ^ 52 <= Zpos m)%Z.
Proof.
  intros L U.
  assert (Hq : 0 < q) by (pose proof (pow2_pos (-1022)); lra).
  destruct (ilog2_spec q Hq) as [S1 S2].
  assert (A : (-1022 <= ilog2 q)%Z).
  { assert (-1022 < ilog2 q + 1)%Z by (apply pow2_lt_inv; lra). lia. }
  assert (B : (ilog2 q <= 1000)%Z).
  { assert (ilog2 q < 1000 + 1)%Z.
    { apply pow2_lt_inv. eapply Qle_lt_trans; [exact S1|].
      eapply Qle_lt_trans; [exact U|]. apply pow2_lt. lia. }
    lia. }
  pose proof (rsig_lower q Hq ltac:(unfold emin; lia)) as Lo.
  pose proof (rsig_upper q Hq) as Up.
  assert (E : rexp q = (ilog2 q - 52)%Z) by (unfold rexp, emin; lia).
  rewrite (round_mag_unfold s q Hq).
  destruct (rsig q =? 0)%Z eqn:Z0; [apply Z.eqb_eq in Z0; lia|].
  destruct (rsig q =? 2 ^ 53)%Z eqn:Z53.
  - destruct (rexp q + 1 >? emax)%Z eqn:G; [unfold emax in G; lia|].
    eexists; eexists; split; [reflexivity|]. lia.
  - destruct (rexp q >? emax)%Z eqn:G; [unfold emax in G; lia|].
    eexists; eexists; split; [reflexivity|]. rewrite Z2Pos.id by lia. exact Lo.
Qed.

Lemma pow2_sub a b : 2 ^ a / 2 ^ b == 2 ^ (a - b).
Proof.
  replace a with ((a - b) + b)%Z at 1 by lia. rewrite pow2_add.
  field. pose proof (pow2_pos b). lra.
Qed.

(** A number that fits in 53 bits is rounded to itself. *)
Lemma round_mag_exact s M E :
  (0 < M < 2 ^ 53)%Z -> (emin <= E)%Z -> inject_Z M * 2 ^ E <= 2 ^ 1000 ->
  exists m e, round_mag s (inject_Z M * 2 ^ E) = Finite s m e
              /\ inject_Z (Zpos m) * 2 ^ e == inject_Z M * 2 ^ E.
Proof.
  intros HM HE HU. set (q := inject_Z M * 2 ^ E) in *.
  assert (M1 : 1 <= inject_Z M).
  { change 1 with (inject_Z 1). rewrite <- Zle_Qle. lia. }
  assert (M2 : inject_Z M < 2 ^ 53).
  { rewrite <- pow2_Z by lia. rewrite <- Zlt_Qlt. lia. }
  pose proof (pow2_pos E) as PE.
  assert (Hq : 0 < q) by (unfold q; nra).
  destruct (ilog2_spec q Hq) as [S1 S2].
  assert (HL : (ilog2 q - 52 <= E)%Z).
  { assert (ilog2 q < 53 + E)%Z; [|lia].
    apply pow2_lt_inv. eapply Qle_lt_trans; [exact S1|].
    rewrite pow2_add. unfold q. nra. }
  assert (He : (rexp q <= E)%Z) by (unfold rexp; lia).
  assert (Hr : q / 2 ^ rexp q == inject_Z (M * 2 ^ (E - rexp q))).
  { rewrite inject_Z_mult, pow2_Z by lia. unfold q, Qdiv.
    rewrite <- Qmult_assoc. apply Qmult_comp; [reflexivity|].
    apply pow2_sub. }
  assert (Hs : rsig q = (M * 2 ^ (E - rexp q))%Z).
  { unfold rsig. rewrite (rne_comp _ _ Hr). apply rne_Z. }
  assert (Hv : inject_Z (rsig q) * 2 ^ rexp q == q).
  { rewrite Hs, <- Hr. apply scaled_back. }
  assert (Hlt : (rsig q < 2 ^ 53)%Z).
  { rewrite Zlt_Qlt, pow2_Z by lia.
    apply (Qmult_lt_r _ _ (2 ^ rexp q) (pow2_pos _)).
    rewrite Hv, <- pow2_add.
    eapply Qlt_le_trans; [exact S2|]. apply pow2_le. unfold rexp. lia. }
  assert (Hpos : (0 < rsig q)%Z).
  { rewrite Hs. apply Z.mul_pos_pos; [lia|]. apply Z.pow_pos_nonneg; lia. }
  assert (Hmax : (rexp q <= emax)%Z).
  { assert (ilog2 q < 1000 + 1)%Z.
    { apply pow2_lt_inv. eapply Qle_lt_trans; [exact S1|].
      eapply Qle_lt_trans; [exact HU|]. apply pow2_lt. lia. }
    unfold rexp, emax, emin. lia. }
  rewrite (round_mag_unfold s q Hq).
  destruct (rsig q =? 0)%Z eqn:Z0; [apply Z.eqb_eq in Z0; lia|].
  destruct (rsig q =? 2 ^ 53)%Z eqn:Z53; [apply Z.eqb_eq in Z53; lia|].
  destruct (rexp q >? emax)%Z eqn:G; [lia|].
  eexists; eexists; split; [reflexivity|].
  rewrite Z2Pos.id by lia. exact Hv.
Qed.

(** ** Signs *)


Lemma mag_pos s m e : 0 < mag (Finite s m e).
Proof.
  simpl. pose proof (pow2_pos e).
  assert (0 < inject_Z (Z.pos m)).
  { change 0 with (inject_Z 0). rewrite <- Zlt_Qlt. lia. }
  nra.
Qed.

Lemma mag_nonneg x : 0 <= mag x.
Proof.
  destruct x as [|s|s|s m e]; simpl; try lra.
  apply Qlt_le_weak, (mag_pos s m e).
Qed.

Lemma val_nonneg x : is_neg x = false -> 0 <= val x.
Proof. intros H. unfold val. rewrite H. apply mag_nonneg. Qed.

Lemma of_Q_comp q1 q2 : q1 == q2 -> of_Q q1 = of_Q q2.
Proof.
  intros E. unfold of_Q.
  rewrite (Qcompare_comp _ _ E 0 0 (Qeq_refl 0)).
  destruct (q2 ?= 0); [reflexivity| |]; apply round_mag_comp; lra.
Qed.

Lemma of_Q_pos q : 0 < q -> of_Q q = round_mag false q.
Proof.
  intros H. unfold of_Q. destruct (Qcompare_spec q 0); [lra | lra | reflexivity].
Qed.

Lemma of_Q_neg q : q < 0 -> of_Q q = round_mag true (- q).
Proof.
  intros H. unfold of_Q. destruct (Qcompare_spec q 0); [lra | reflexivity | lra].
Qed.




Lemma lt_0_nonneg x : is_neg x = false -> lt x num_0 = false.
Proof.
  intros H. destruct x as [|s|s|s m e]; simpl in H; subst; try reflexivity.
  unfold lt, num_0.
  destruct (Qcompare_spec (val (Finite false m e)) (val (Zero false))) as [E|E|E];
    try reflexivity.
  pose proof (mag_pos false m e). unfold val in E. simpl in E. simpl in H. lra.
Qed.

End NumberFacts.

(** ** Numbers written and read back *)

Module StringFacts.
Import JSNumber JSString NumberFacts.

Local Open Scope Z_scope.

(** *** Strings and lists of characters *)

Lemma chars_append a b : chars (a +:+ b) = chars a ++ chars b.
Proof. induction a as [|c a IH]; simpl; [reflexivity | now rewrite IH]. Qed.

Lemma chars_toString x : chars (Number_toString x) = toString_chars x.
Proof. apply list_ascii_of_string_of_list_ascii. Qed.

(** *** Decimal digits *)

Definition is_decimal (d : Z) : Prop := 0 <= d < 10.

Lemma digit_char_spec d :
  is_decimal d → is_digit (digit_char d) = true ∧ digit_val (digit_char d) = d.
Proof.
  intros H.
  assert (E : d = 0 ∨ d = 1 ∨ d = 2 ∨ d = 3 ∨ d = 4 ∨ d = 5 ∨ d = 6 ∨ d = 7
              ∨ d = 8 ∨ d = 9) by (unfold is_decimal in H; lia).
  repeat (destruct E as [->|E]; [split; reflexivity|]).
  subst d. split; reflexivity.
Qed.

Lemma digits_decimal k s : Forall is_decimal (digits k s).
Proof.
  revert s. induction k as [|k IH]; intros s; simpl; constructor; [|apply IH].
  apply Z.mod_pos_bound. lia.
Qed.

Lemma digits_length k s : length (digits k s) = k.
Proof. revert s. induction k as [|k IH]; intros s; simpl; [|rewrite IH]; reflexivity. Qed.

(** The value of digits read after [acc]. *)
Definition digits_from (acc : Z) (ds : list Z) : Z :=
  fold_left (fun acc d => 10 * acc + d) ds acc.

Lemma digits_from_app acc l1 l2 :
  digits_from acc (l1 ++ l2) = digits_from (digits_from acc l1) l2.
Proof. unfold digits_from. apply fold_left_app. Qed.

Lemma digits_from_val acc ds :
  digits_from acc ds = acc * 10 ^ Z.of_nat (length ds) + digits_val ds.
Proof.
  unfold digits_val. fold (digits_from 0 ds). revert acc.
  induction ds as [|d ds IH] using rev_ind; intros acc.
  - simpl. lia.
  - rewrite !digits_from_app, length_app. simpl length.
    unfold digits_from at 1 3. simpl fold_left.
    fold (digits_from acc ds). fold (digits_from 0 ds).
    rewrite (IH acc).
    replace (Z.of_nat (length ds + 1)) with (Z.of_nat (length ds) + 1) by lia.
    rewrite Z.pow_add_r by lia. lia.
Qed.

Lemma digits_val_app l1 l2 :
  digits_val (l1 ++ l2) = digits_val l1 * 10 ^ Z.of_nat (length l2) + digits_val l2.
Proof.
  unfold digits_val at 1. fold (digits_from 0 (l1 ++ l2)).
  rewrite digits_from_app, digits_from_val. unfold digits_from. reflexivity.
Qed.

Lemma digits_val_digits k s : 0 <= s < 10 ^ Z.of_nat k → digits_val (digits k s) = s.
Proof.
  revert s. induction k as [|k IH]; intros s H.
  - simpl in *. unfold digits_val. simpl. lia.
  - cbn [digits].
    change (?d :: ?l) with ([d] ++ l). rewrite digits_val_app, digits_length.
    assert (P : 0 < 10 ^ Z.of_nat k) by (apply Z.pow_pos_nonneg; lia).
    rewrite IH by (apply Z.mod_pos_bound; lia).
    unfold digits_val at 1. simpl fold_left.
    replace (Z.of_nat (S k)) with (Z.of_nat k + 1) in H by lia.
    rewrite Z.pow_add_r in H by lia.
    rewrite Z.mod_small by (split; [apply Z.div_pos; lia | apply Z.div_lt_upper_bound; lia]).
    pose proof (Z.div_mod s (10 ^ Z.of_nat k)). lia.
Qed.

Lemma digits_val_repeat0 n : digits_val (repeat 0 n) = 0.
Proof.
  induction n as [|n IH]; [reflexivity|].
  change (repeat 0 (S n)) with ([0] ++ repeat 0 n).
  rewrite digits_val_app, IH. reflexivity.
Qed.

Lemma zeros_digits n : zeros n = digits_str (repeat 0 (Z.to_nat n)).
Proof.
  unfold zeros, digits_str. induction (Z.to_nat n) as [|k IH]; simpl; [reflexivity|].
  now rewrite IH.
Qed.

Lemma repeat0_decimal n : Forall is_decimal (repeat 0 n).
Proof. induction n; simpl; constructor; [unfold is_decimal; lia | assumption]. Qed.

(** *** Reading back what was written *)

Definition stops (l : list ascii) : Prop :=
  match l with
  | [] => True
  | c :: _ => is_digit c = false
  end.

Lemma scan_digits_stop l acc cnt : stops l → scan_digits l acc cnt = (acc, cnt, l).
Proof. destruct l as [|c l]; simpl; [reflexivity|]. now intros ->. Qed.

Lemma scan_digits_app ds rest acc cnt :
  Forall is_decimal ds → stops rest →
  scan_digits (digits_str ds ++ rest) acc cnt
  = (digits_from acc ds, cnt + Z.of_nat (length ds), rest).
Proof.
  intros Hds Hrest. revert acc cnt.
  induction Hds as [|d ds Hd Hds IH]; intros acc cnt.
  - simpl. rewrite scan_digits_stop by exact Hrest. f_equal. f_equal. lia.
  - destruct (digit_char_spec d Hd) as [E1 E2].
    cbn [digits_str map app scan_digits]. rewrite E1, E2.
    fold (digits_str ds). rewrite IH. cbn [length].
    unfold digits_from. simpl fold_left. f_equal. f_equal. lia.
Qed.

Lemma pow10_pos p : (0 < pow10 p)%Q.
Proof. apply Qpower_0_lt. reflexivity. Qed.

Lemma pow10_add a b : (pow10 (a + b) == pow10 a * pow10 b)%Q.
Proof. apply Qpower_plus. discriminate. Qed.

Lemma pow10_Z n : 0 <= n → (inject_Z (10 ^ n) == pow10 n)%Q.
Proof. intros H. apply (Zpower_Qpower 10 n H). Qed.

Lemma pow10_0 : (pow10 0 == 1)%Q.
Proof. reflexivity. Qed.

Lemma scan_exponent_head suf ex r :
  scan_exponent suf = Some (ex, r) →
  ∃ c rest, suf = c :: rest ∧ is_digit c = false ∧ Ascii.eqb c "."%char = false.
Proof.
  destruct suf as [|c rest]; [discriminate|]. simpl.
  destruct (Ascii.eqb_spec c "e"%char) as [->|He].
  - intros _. exists "e"%char, rest. repeat split.
  - destruct (Ascii.eqb_spec c "E"%char) as [->|HE]; [|discriminate].
    intros _. exists "E"%char, rest. repeat split.
Qed.

Lemma is_digit_not_I c : is_digit c = true → Ascii.eqb "I"%char c = false.
Proof.
  intros H. destruct (Ascii.eqb_spec "I"%char c) as [<-|]; [discriminate H | reflexivity].
Qed.

Lemma strip_Infinity_digit c l :
  is_digit c = true → strip_prefix (chars "Infinity") (c :: l) = None.
Proof.
  intros H. change (chars "Infinity") with ("I"%char :: chars "nfinity").
  cbn [strip_prefix]. now rewrite (is_digit_not_I c H).
Qed.

(** The positions of the decimal point for which [Number::toString] uses
    plain notation. *)
Definition plain (n : Z) : Prop := -6 < n <= 21.

Lemma render_head ds n suf :
  Forall is_decimal ds → ds ≠ [] → plain n →
  ∃ c l, render ds n ++ suf = c :: l ∧ is_digit c = true.
Proof.
  intros Hds Hne [Hn1 Hn2]. destruct ds as [|d ds]; [congruence|].
  inversion Hds as [|? ? Hd Hds']; subst.
  destruct (digit_char_spec d Hd) as [E _].
  unfold render.
  destruct ((_ <=? n) && (n <=? 21)) eqn:C1.
  { eexists; eexists; split; [reflexivity | exact E]. }
  destruct ((0 <? n) && (n <=? 21)) eqn:C2.
  { apply andb_true_iff in C2 as [C2 _]. apply Z.ltb_lt in C2.
    destruct (Z.to_nat n) as [|j] eqn:Ej; [lia|].
    eexists; eexists; split; [reflexivity | exact E]. }
  destruct ((-6 <? n) && (n <=? 0)) eqn:C3.
  { eexists; eexists; split; [reflexivity | reflexivity]. }
  apply andb_false_iff in C2, C3. rewrite Z.ltb_ge, Z.leb_gt in *. lia.
Qed.

(** Reading a number written in plain notation, followed by an exponent
    part: the digits come back, and the exponents add up. *)
Lemma scan_unsigned_render ds n suf ex r3 :
  Forall is_decimal ds → ds ≠ [] → plain n →
  scan_exponent suf = Some (ex, r3) →
  ∃ M E, scan_unsigned (render ds n ++ suf) = Some (DNum M E, r3)
         ∧ (inject_Z M * pow10 E
            == inject_Z (digits_val ds) * pow10 (n - Z.of_nat (length ds) + ex))%Q.
Proof.
  intros Hds Hne Hn Hsuf.
  destruct (scan_exponent_head suf ex r3 Hsuf) as (c & rest & -> & Hc & Hdot).
  unfold scan_unsigned.
  destruct (render_head ds n (c :: rest) Hds Hne Hn) as (c0 & l0 & Eh & Hc0).
  rewrite Eh, (strip_Infinity_digit c0 l0 Hc0), <- Eh. clear Eh Hc0 c0 l0.
  destruct Hn as [Hn1 Hn2]. unfold render.
  assert (Hk : 0 < Z.of_nat (length ds)) by (destruct ds; [congruence | simpl; lia]).
  destruct ((_ <=? n) && (n <=? 21)) eqn:C1.
  { (* digits, then zeros *)
    apply andb_true_iff in C1 as [C1 _]. apply Z.leb_le in C1.
    rewrite zeros_digits. unfold digits_str. rewrite <- map_app.
    fold (digits_str (ds ++ repeat 0 (Z.to_nat (n - Z.of_nat (length ds))))).
    rewrite scan_digits_app;
      [|apply Forall_app; split; [exact Hds | apply repeat0_decimal] | exact Hc].
    rewrite Hdot.
    replace ((0 + Z.of_nat (length (ds ++ repeat 0 (Z.to_nat (n - Z.of_nat (length ds))))) =? 0) && (0 =? 0))
      with false
      by (rewrite length_app, repeat_length; symmetry; apply andb_false_iff; left;
          apply Z.eqb_neq; lia).
    rewrite Hsuf. eexists; eexists; split; [reflexivity|].
    rewrite digits_from_val, digits_val_app, digits_val_repeat0, repeat_length.
    rewrite Z2Nat.id by lia.
    replace (0 * 10 ^ Z.of_nat (length (ds ++ repeat 0 (Z.to_nat (n - Z.of_nat (length ds)))))
             + (digits_val ds * 10 ^ (n - Z.of_nat (length ds)) + 0))
      with (digits_val ds * 10 ^ (n - Z.of_nat (length ds))) by lia.
    rewrite inject_Z_mult, pow10_Z by lia.
    rewrite Z.sub_0_r, pow10_add. ring. }
  destruct ((0 <? n) && (n <=? 21)) eqn:C2.
  { (* digits, the point, digits *)
    apply andb_true_iff in C2 as [C2 _]. apply Z.ltb_lt in C2.
    apply andb_false_iff in C1 as [C1|C1]; [|apply Z.leb_gt in C1; lia].
    apply Z.leb_gt in C1.
    rewrite <- app_assoc. cbn [app].
    rewrite scan_digits_app; [|apply Forall_take, Hds | reflexivity].
    cbn [Ascii.eqb Bool.eqb]. cbv iota.
    rewrite scan_digits_app; [|apply Forall_drop, Hds | exact Hc].
    rewrite length_take, length_drop.
    replace ((0 + Z.of_nat (Z.to_nat n `min` length ds) =? 0)
             && (0 + Z.of_nat (length ds - Z.to_nat n) =? 0))
      with false by (symmetry; apply andb_false_iff; left; apply Z.eqb_neq; lia).
    rewrite Hsuf. eexists; eexists; split; [reflexivity|].
    rewrite <- digits_from_app, take_drop. fold (digits_val ds).
    replace (ex - (0 + Z.of_nat (length ds - Z.to_nat n)))
      with (n - Z.of_nat (length ds) + ex) by lia.
    reflexivity. }
  destruct ((-6 <? n) && (n <=? 0)) eqn:C3.
  { (* 0, the point, zeros, digits *)
    apply andb_true_iff in C3 as [_ C3]. apply Z.leb_le in C3.
    cbn [app scan_digits]. cbn [is_digit]. 
    change (is_digit "0"%char) with true. cbv iota.
    change (is_digit "."%char) with false. cbv iota.
    cbn [Ascii.eqb Bool.eqb]. cbv iota.
    rewrite zeros_digits, <- app_assoc. unfold digits_str at 1 2.
    rewrite app_assoc, <- map_app.
    fold (digits_str (repeat 0 (Z.to_nat (- n)) ++ ds)).
    rewrite scan_digits_app;
      [|apply Forall_app; split; [apply repeat0_decimal | exact Hds] | exact Hc].
    replace ((0 + 1 =? 0) && _) with false by reflexivity.
    rewrite Hsuf. eexists; eexists; split; [reflexivity|].
    rewrite digits_from_val, digits_val_app, digits_val_repeat0.
    rewrite length_app, repeat_length.
    replace ((10 * 0 + digit_val "0") * 10 ^ Z.of_nat (Z.to_nat (- n) + length ds)
             + (0 * 10 ^ Z.of_nat (length ds) + digits_val ds))
      with (digits_val ds) by (change (digit_val "0") with 0; lia).
    replace (ex - (0 + Z.of_nat (Z.to_nat (- n) + length ds)))
      with (n - Z.of_nat (length ds) + ex) by lia.
    reflexivity. }
  apply andb_false_iff in C2, C3. rewrite Z.ltb_ge, Z.leb_gt in *.
  apply andb_false_iff in C1. rewrite !Z.leb_gt in C1. lia.
Qed.

(** The characters of a number written in plain notation and of the
    exponent parts that [round] appends. *)
Definition plain_char (c : ascii) : Prop :=
  is_digit c = true ∨ c = "."%char ∨ c = "e"%char ∨ c = "-"%char.

Lemma plain_char_not_space c : plain_char c → is_space c = false.
Proof.
  intros [H|[->|[->| ->]]]; try reflexivity.
  unfold is_digit in H. unfold is_space.
  apply andb_true_iff in H as [H1 H2]. apply Z.leb_le in H1, H2.
  apply orb_false_iff; split; [apply orb_false_iff; split|].
  - apply andb_false_iff. right. apply Z.leb_gt. lia.
  - apply Z.eqb_neq. lia.
  - apply Z.eqb_neq. lia.
Qed.

Lemma plain_char_not_radix c :
  plain_char c →
  Ascii.eqb c "x" || Ascii.eqb c "X" = false
  ∧ Ascii.eqb c "o" || Ascii.eqb c "O" = false
  ∧ Ascii.eqb c "b" || Ascii.eqb c "B" = false.
Proof.
  intros [H|[->|[->| ->]]]; try (repeat split; reflexivity).
  repeat split; apply orb_false_iff; split;
    match goal with
    | |- Ascii.eqb c ?a = false =>
        destruct (Ascii.eqb_spec c a) as [->|]; [discriminate H | reflexivity]
    end.
Qed.

Lemma digits_str_plain ds : Forall is_decimal ds → Forall plain_char (digits_str ds).
Proof.
  intros H. unfold digits_str. apply Forall_fmap.
  eapply Forall_impl; [exact H|]. intros d Hd. left.
  apply (digit_char_spec d Hd).
Qed.

Lemma render_plain ds n :
  Forall is_decimal ds → plain n → Forall plain_char (render ds n).
Proof.
  intros Hds [Hn1 Hn2]. unfold render.
  pose proof (digits_str_plain ds Hds) as P.
  destruct ((_ <=? n) && (n <=? 21)) eqn:C1.
  { apply Forall_app; split; [exact P|]. rewrite zeros_digits.
    apply digits_str_plain, repeat0_decimal. }
  destruct ((0 <? n) && (n <=? 21)) eqn:C2.
  { apply Forall_app; split; [apply digits_str_plain, Forall_take, Hds|].
    constructor; [right; left; reflexivity|].
    apply digits_str_plain, Forall_drop, Hds. }
  destruct ((-6 <? n) && (n <=? 0)) eqn:C3.
  { constructor; [left; reflexivity|]. constructor; [right; left; reflexivity|].
    apply Forall_app; split; [|exact P]. rewrite zeros_digits.
    apply digits_str_plain, repeat0_decimal. }
  apply andb_false_iff in C2, C3. rewrite Z.ltb_ge, Z.leb_gt in *. lia.
Qed.

Lemma trim_start_id c l : is_space c = false → trim_start (c :: l) = c :: l.
Proof. intros H. simpl. now rewrite H. Qed.

(** A string of plain characters has no white space to trim. *)
Lemma trim_plain s : Forall plain_char s → trim s = s.
Proof.
  intros H. unfold trim.
  assert (T : ∀ l, Forall plain_char l → trim_start l = l).
  { intros [|c l] Hl; [reflexivity|]. inversion Hl; subst.
    apply trim_start_id, plain_char_not_space. assumption. }
  rewrite (T s H), T; [apply rev_involutive|].
  apply List.Forall_rev, H.
Qed.

Lemma non_decimal_plain s : Forall plain_char s → non_decimal s = None.
Proof.
  destruct s as [|z [|r [|d rest]]]; try reflexivity.
  intros H. inversion H as [|? ? _ H']; subst. inversion H' as [|? ? Hr _]; subst.
  destruct (plain_char_not_radix r Hr) as (E1 & E2 & E3).
  unfold non_decimal. destruct (Ascii.eqb z "0"); [|reflexivity].
  rewrite E1, E2, E3. reflexivity.
Qed.

Definition sign_chars (sg : bool) : list ascii :=
  if sg then ["-"%char] else [].

Lemma is_digit_not_sign c :
  is_digit c = true → Ascii.eqb c "-" = false ∧ Ascii.eqb c "+" = false.
Proof.
  intros H. split.
  - destruct (Ascii.eqb_spec c "-") as [->|]; [discriminate H | reflexivity].
  - destruct (Ascii.eqb_spec c "+") as [->|]; [discriminate H | reflexivity].
Qed.

(** [StringToNumber] of a number written in plain notation and followed by
    an exponent part: the decimal, shifted, and rounded to a Number. *)
Lemma StringToNumber_render sg ds n suf ex :
  Forall is_decimal ds → ds ≠ [] → plain n →
  Forall plain_char suf → scan_exponent suf = Some (ex, []) →
  StringToNumber_chars (sign_chars sg ++ render ds n ++ suf)
  = round_mag sg (inject_Z (digits_val ds) * pow10 (n - Z.of_nat (length ds) + ex)).
Proof.
  intros Hds Hne Hn Hsuf Hex.
  assert (Hp : Forall plain_char (sign_chars sg ++ render ds n ++ suf)).
  { apply Forall_app; split.
    - destruct sg; simpl; [|constructor].
      constructor; [|constructor]. right; right; right. reflexivity.
    - apply Forall_app; split; [apply render_plain; assumption | exact Hsuf]. }
  destruct (render_head ds n suf Hds Hne Hn) as (c & l & Eh & Hc).
  destruct (scan_unsigned_render ds n suf ex [] Hds Hne Hn Hex) as (M & E & Hscan & Hval).
  destruct (is_digit_not_sign c Hc) as [Em Ep].
  unfold StringToNumber_chars. rewrite (trim_plain _ Hp), (non_decimal_plain _ Hp).
  assert (Hs : scan_signed (sign_chars sg ++ render ds n ++ suf) = Some (sg, DNum M E, [])).
  { unfold scan_signed. destruct sg; cbn [sign_chars app].
    - change (Ascii.eqb "-" "-") with true. cbv iota. now rewrite Hscan.
    - rewrite Eh, Em, Ep, <- Eh. now rewrite Hscan. }
  rewrite Hs.
  destruct (sign_chars sg ++ render ds n ++ suf) as [|c0 l0] eqn:E0.
  { destruct sg; cbn [sign_chars app] in E0; [discriminate E0|].
    rewrite Eh in E0. discriminate E0. }
  cbn [decimal_value]. apply round_mag_comp. exact Hval.
Qed.

(** *** The digits that [Number::toString] picks *)

Lemma Number_eqb_eq x y : Number_eqb x y = true → x = y.
Proof.
  destruct x as [|s|s|s m e], y as [|t|t|t n f]; simpl; try discriminate;
    try reflexivity.
  - intros H. apply Bool.eqb_prop in H. now subst.
  - intros H. apply Bool.eqb_prop in H. now subst.
  - intros H. apply andb_true_iff in H as [H H3]. apply andb_true_iff in H as [H1 H2].
    apply Bool.eqb_prop in H1. apply Pos.eqb_eq in H2. apply Z.eqb_eq in H3.
    now subst.
Qed.

Lemma Number_eqb_refl x : Number_eqb x x = true.
Proof.
  destruct x as [|s|s|s m e]; simpl; try reflexivity; try apply Bool.eqb_reflx.
  now rewrite Bool.eqb_reflx, Pos.eqb_refl, Z.eqb_refl.
Qed.

Lemma shortest_spec x v n0 fuel k0 k s p :
  shortest x v n0 fuel k0 = Some (k, s, p) →
  candidate x v n0 k = Some (s, p)
  ∧ (k0 <= k)%nat
  ∧ ∀ k', (k0 <= k' < k)%nat → candidate x v n0 k' = None.
Proof.
  revert k0. induction fuel as [|fuel IH]; intros k0; simpl; [discriminate|].
  destruct (candidate x v n0 k0) as [[s0 p0]|] eqn:E.
  - intros H. injection H as <- <- <-. split; [exact E|]. split; [lia|].
    intros k' Hk'. lia.
  - intros H. destruct (IH _ H) as (H1 & H2 & H3).
    split; [exact H1|]. split; [lia|].
    intros k' Hk'. destruct (decide (k' = k0)) as [->|Hne]; [exact E|].
    apply H3. lia.
Qed.

(** The decimal picked has [k] digits and reads back as [x]. *)
Lemma candidate_spec x v n0 k s p :
  candidate x v n0 k = Some (s, p) →
  has_digits k s = true ∧ reads_as x s p = true.
Proof.
  unfold candidate.
  set (lo := Qfloor (v / pow10 (n0 - Z.of_nat k))).
  set (carry := lo + 1 =? 10 ^ Z.of_nat k).
  set (hi := if carry then 10 ^ (Z.of_nat k - 1) else lo + 1).
  set (ph := if carry then n0 - Z.of_nat k + 1 else n0 - Z.of_nat k).
  destruct (has_digits k lo && reads_as x lo (n0 - Z.of_nat k)) eqn:Elo;
    destruct (has_digits k hi && reads_as x hi ph) eqn:Ehi;
    try discriminate.
  - apply andb_true_iff in Elo, Ehi.
    destruct (_ ?= _)%Q; [destruct (Z.even lo)| |]; intros H; injection H as <- <-;
      assumption.
  - apply andb_true_iff in Elo. intros H; injection H as <- <-. assumption.
  - apply andb_true_iff in Ehi. intros H; injection H as <- <-. assumption.
Qed.

Lemma has_digits_spec k s :
  has_digits k s = true ↔ 10 ^ (Z.of_nat k - 1) <= s < 10 ^ Z.of_nat k.
Proof.
  unfold has_digits. rewrite andb_true_iff, Z.leb_le, Z.ltb_lt. tauto.
Qed.

Lemma count_digits_spec fuel n :
  0 < n → Z.log2 n <= Z.of_nat fuel → has_digits (count_digits fuel n) n = true.
Proof.
  revert n. induction fuel as [|fuel IH]; intros n Hn Hl; cbn [count_digits].
  - apply has_digits_spec. change (10 ^ (Z.of_nat 1 - 1)) with 1.
    change (10 ^ Z.of_nat 1) with 10.
    assert (n < 2 ^ 1); [|lia]. apply Z.log2_lt_pow2; lia.
  - destruct (n <? 10) eqn:E.
    + apply Z.ltb_lt in E. apply has_digits_spec.
      change (10 ^ (Z.of_nat 1 - 1)) with 1. change (10 ^ Z.of_nat 1) with 10. lia.
    + apply Z.ltb_ge in E.
      assert (H10 : 0 < n / 10) by (apply Z.div_str_pos; lia).
      assert (Hl' : Z.log2 (n / 10) <= Z.of_nat fuel).
      { assert (Z.log2 (n / 10) < Z.of_nat fuel + 1); [|lia].
        apply Z.log2_lt_pow2; [exact H10|].
        assert (A : n < 2 ^ (Z.of_nat (S fuel) + 1)) by (apply Z.log2_lt_pow2; lia).
        replace (Z.of_nat (S fuel) + 1) with (Z.of_nat fuel + 1 + 1) in A by lia.
        rewrite (Z.pow_add_r _ _ 1) in A by lia. change (2 ^ 1) with 2 in A.
        apply Z.div_lt_upper_bound; lia. }
      pose proof (IH (n / 10) H10 Hl') as H. apply has_digits_spec in H.
      apply has_digits_spec.
      set (c := count_digits fuel (n / 10)) in *.
      assert (Hc : (1 <= c)%nat) by (unfold c; destruct fuel; simpl; [lia|destruct (_ <? _); lia]).
      replace (Z.of_nat (S c) - 1) with (Z.of_nat c - 1 + 1) by lia.
      replace (Z.of_nat (S c)) with (Z.of_nat c + 1) by lia.
      rewrite !Z.pow_add_r by lia. change (10 ^ 1) with 10.
      pose proof (Z.div_mod n 10 ltac:(lia)) as D.
      pose proof (Z.mod_pos_bound n 10 ltac:(lia)) as M.
      lia.
Qed.

Lemma num_digits_spec n : 0 < n → has_digits (num_digits n) n = true.
Proof.
  intros H. unfold num_digits. apply count_digits_spec; [exact H|].
  rewrite Z2Nat.id; [lia | apply Z.log2_nonneg].
Qed.

Lemma pow10_split e : (pow10 e == 2 ^ e * inject_Z 5 ^ e)%Q.
Proof. unfold pow10. rewrite <- Qmult_power. reflexivity. Qed.

Lemma exact_decimal_spec m e :
  let '(k, s, p) := exact_decimal m e in
  has_digits k s = true ∧ (inject_Z s * pow10 p == inject_Z (Zpos m) * 2 ^ e)%Q.
Proof.
  unfold exact_decimal. destruct (0 <=? e) eqn:E.
  - apply Z.leb_le in E. split.
    + apply num_digits_spec. apply Z.mul_pos_pos; [lia|]. apply Z.pow_pos_nonneg; lia.
    + rewrite Z.min_r by lia. rewrite pow10_0, inject_Z_mult, pow2_Z by lia. ring.
  - apply Z.leb_gt in E. split.
    + apply num_digits_spec. apply Z.mul_pos_pos; [lia|]. apply Z.pow_pos_nonneg; lia.
    + rewrite Z.min_l by lia. rewrite pow10_split, inject_Z_mult.
      rewrite (Zpower_Qpower 5 (- e)) by lia.
      assert (H : (inject_Z 5 ^ (- e) * inject_Z 5 ^ e == 1)%Q).
      { rewrite <- Qpower_plus by discriminate.
        replace (- e + e) with 0 by lia. reflexivity. }
      rewrite <- (Qmult_1_r (inject_Z (Z.pos m) * 2 ^ e)), <- H. ring.
Qed.

Lemma has_digits_pos k s : (0 < k)%nat → has_digits k s = true → 0 < s.
Proof.
  intros Hk H. apply has_digits_spec in H.
  assert (0 < 10 ^ (Z.of_nat k - 1)) by (apply Z.pow_pos_nonneg; lia). lia.
Qed.

Lemma count_digits_pos fuel n : (0 < count_digits fuel n)%nat.
Proof. destruct fuel; simpl; [lia|]. destruct (n <? 10); lia. Qed.

(** How the decimal [sd * 10^p], of [k] digits, was picked for [m * 2^e]:
    by the search for the shortest decimal, or as the exact expansion. *)
Definition picked (m : positive) (e : Z) (k : nat) (sd p : Z) : Prop :=
  let x := Finite false m e in
  (candidate x (mag x) (ilog10 (mag x) + 1) k = Some (sd, p)
   ∧ ∀ k', (1 <= k' < k)%nat → candidate x (mag x) (ilog10 (mag x) + 1) k' = None)
  ∨ (inject_Z sd * pow10 p == mag x)%Q.

(** The decimal that [Number::toString] writes for the magnitude of a finite
    number: its digits [ds] and the position [n] of the decimal point. *)
Lemma decimal_of_spec s m e ds n :
  decimal_of (Finite s m e) = (ds, n) →
  ∃ k sd p,
    ds = digits k sd ∧ n = Z.of_nat k + p ∧ (0 < k)%nat ∧ has_digits k sd = true
    ∧ picked m e k sd p.
Proof.
  unfold decimal_of, picked.
  change (mag (Finite s m e)) with (mag (Finite false m e)).
  destruct (shortest _ _ _ _ _) as [[[k sd] p]|] eqn:E.
  - intros H. injection H as <- <-. exists k, sd, p.
    apply shortest_spec in E as (E & Hk & Hmin).
    destruct (candidate_spec _ _ _ _ _ _ E) as [H1 H2].
    repeat split; [lia | exact H1|]. left. split; [exact E|].
    intros k' Hk'. apply Hmin. lia.
  - pose proof (exact_decimal_spec m e) as H.
    destruct (exact_decimal m e) as [[k sd] p] eqn:E0.
    intros H'. injection H' as <- <-.
    assert (Hk : (0 < k)%nat).
    { revert E0. unfold exact_decimal. intros E0. injection E0 as <- _ _.
      apply count_digits_pos. }
    exists k, sd, p.
    destruct H as [H1 H2]. repeat split; [exact Hk|exact H1|right; exact H2].
Qed.

(** What [Number::toString] writes for a finite number, and its value. *)
Definition rendered (x : Number) : Q :=
  let '(ds, n) := decimal_of x in
  (inject_Z (digits_val ds) * pow10 (n - Z.of_nat (length ds)))%Q.

Lemma picked_reads m e k sd p :
  picked m e k sd p →
  round_mag false (inject_Z sd * pow10 p) = Finite false m e
  ∨ (inject_Z sd * pow10 p == mag (Finite false m e))%Q.
Proof.
  intros [[H _]|H]; [left | right; exact H].
  apply candidate_spec in H as [_ H]. apply Number_eqb_eq. exact H.
Qed.

Lemma toString_Finite s m e :
  ∃ ds n k sd p,
    decimal_of (Finite s m e) = (ds, n)
    ∧ toString_chars (Finite s m e) = sign_chars s ++ render ds n
    ∧ Forall is_decimal ds ∧ ds ≠ []
    ∧ (rendered (Finite s m e) == inject_Z sd * pow10 p)%Q
    ∧ (inject_Z (digits_val ds) * pow10 (n - Z.of_nat (length ds))
       == rendered (Finite s m e))%Q
    ∧ picked m e k sd p
    ∧ (0 < rendered (Finite s m e))%Q
    ∧ (pow10 (n - 1) <= rendered (Finite s m e))%Q
    ∧ (rendered (Finite s m e) < pow10 n)%Q.
Proof.
  destruct (decimal_of (Finite s m e)) as [ds n] eqn:E.
  destruct (decimal_of_spec s m e ds n E) as (k & sd & p & -> & -> & Hk & Hd & Hr).
  exists (digits k sd), (Z.of_nat k + p), k, sd, p.
  pose proof (has_digits_pos k sd Hk Hd) as Hs.
  pose proof Hd as Hd'. apply has_digits_spec in Hd'.
  assert (Hv : digits_val (digits k sd) = sd).
  { apply digits_val_digits. lia. }
  assert (Er : (rendered (Finite s m e) == inject_Z sd * pow10 p)%Q).
  { unfold rendered. rewrite E, Hv, digits_length.
    replace (Z.of_nat k + p - Z.of_nat k) with p by lia. reflexivity. }
  split; [|split; [|split; [|split; [|split; [|split; [|split; [|split; [|split]]]]]]]].
  - reflexivity.
  - unfold toString_chars. rewrite E. destruct s; reflexivity.
  - apply digits_decimal.
  - destruct k; [lia|]. discriminate.
  - exact Er.
  - unfold rendered. rewrite E. reflexivity.
  - exact Hr.
  - rewrite Er. pose proof (pow10_pos p).
    assert (0 < inject_Z sd)%Q by (change 0%Q with (inject_Z 0); rewrite <- Zlt_Qlt; lia).
    nra.
  - assert (A : (pow10 (Z.of_nat k + p - 1) == inject_Z (10 ^ (Z.of_nat k - 1)) * pow10 p)%Q).
    { replace (Z.of_nat k + p - 1) with ((Z.of_nat k - 1) + p) by lia.
      rewrite pow10_add, pow10_Z by lia. reflexivity. }
    rewrite A, Er.
    apply Qmult_le_compat_r; [|apply Qlt_le_weak, pow10_pos].
    rewrite <- Zle_Qle. lia.
  - assert (A : (pow10 (Z.of_nat k + p) == inject_Z (10 ^ Z.of_nat k) * pow10 p)%Q).
    { rewrite pow10_add, pow10_Z by lia. reflexivity. }
    rewrite A, Er.
    apply Qmult_lt_compat_r; [apply pow10_pos|].
    rewrite <- Zlt_Qlt. lia.
Qed.

Lemma pow10_le a b : a <= b → (pow10 a <= pow10 b)%Q.
Proof. intros H. apply Qpower_le_compat_l; [exact H | discriminate]. Qed.

Lemma pow10_lt a b : a < b → (pow10 a < pow10 b)%Q.
Proof. intros H. apply Qpower_lt_compat_l; [exact H | reflexivity]. Qed.

Lemma pow10_lt_inv a b : (pow10 a < pow10 b)%Q → a < b.
Proof. intros H. apply (Qpower_lt_compat_l_inv (inject_Z 10)); [exact H | reflexivity]. Qed.

Lemma Qfloor_bounds r n : Qfloor r = n → (inject_Z n <= r ∧ r < inject_Z n + 1)%Q.
Proof.
  intros <-. split; [apply Qfloor_le|].
  pose proof (Qlt_floor r) as H. rewrite inject_Z_plus in H. exact H.
Qed.

Lemma scaled10_back v p : (v / pow10 p * pow10 p == v)%Q.
Proof. field. pose proof (pow10_pos p). lra. Qed.

(** Two integers less than one apart are equal. *)
Lemma Z_close a b : (inject_Z a - inject_Z b < 1)%Q → (inject_Z b - inject_Z a < 1)%Q → a = b.
Proof.
  intros H1 H2.
  assert (A : (inject_Z a < inject_Z (b + 1))%Q) by (rewrite inject_Z_plus; change (inject_Z 1) with 1%Q; lra).
  assert (B : (inject_Z b < inject_Z (a + 1))%Q) by (rewrite inject_Z_plus; change (inject_Z 1) with 1%Q; lra).
  rewrite <- Zlt_Qlt in A, B. lia.
Qed.

(** *** Integers are written with all their digits *)

Section Integer.

Variables (m : positive) (e : Z) (j : Z).
Let x := Finite false m e.
Hypothesis Hj : 1 <= j < 2 ^ 52.
Hypothesis He : e <= -1.
Hypothesis Hmag : (mag x == inject_Z j)%Q.
Hypothesis Hround : round_mag false (inject_Z j) = x.

Lemma reads_as_close sd p :
  reads_as x sd p = true →
  (inject_Z sd * pow10 p - inject_Z j <= 1 # 4
   ∧ inject_Z j - inject_Z sd * pow10 p <= 1 # 4)%Q.
Proof.
  intros H. apply Number_eqb_eq in H.
  apply round_mag_Finite in H as (_ & _ & _ & _ & H1 & H2).
  assert (P : (2 ^ (e - 1) <= 1 # 4)%Q).
  { change (1 # 4)%Q with (2 ^ (-2))%Q. apply pow2_le. lia. }
  unfold x in Hmag. simpl in Hmag. lra.
Qed.

Lemma has_digits_lo_cert n0 k :
  (0 < k)%nat →
  has_digits k (Qfloor (mag x / pow10 (n0 - Z.of_nat k))) = true →
  1 <= n0 ∧ 10 ^ (n0 - 1) <= j < 10 ^ n0.
Proof.
  intros Hk H. apply has_digits_spec in H.
  destruct (Qfloor_bounds (mag x / pow10 (n0 - Z.of_nat k)) _ eq_refl) as [F1 F2].
  set (p := n0 - Z.of_nat k) in *.
  set (lo := Qfloor (mag x / pow10 p)) in *.
  pose proof (scaled10_back (mag x) p) as Eb.
  pose proof (pow10_pos p) as Pp.
  assert (L : (inject_Z (10 ^ (Z.of_nat k - 1)) <= mag x / pow10 p)%Q).
  { eapply Qle_trans; [|exact F1]. rewrite <- Zle_Qle. lia. }
  assert (U : (mag x / pow10 p < inject_Z (10 ^ Z.of_nat k))%Q).
  { eapply Qlt_le_trans; [exact F2|].
    change 1%Q with (inject_Z 1). rewrite <- inject_Z_plus, <- Zle_Qle. lia. }
  rewrite pow10_Z in L, U by lia.
  assert (L' : (pow10 (n0 - 1) <= inject_Z j)%Q).
  { rewrite <- Hmag, <- Eb.
    replace (n0 - 1) with ((Z.of_nat k - 1) + p) by (unfold p; lia).
    rewrite pow10_add. apply Qmult_le_compat_r; [exact L | lra]. }
  assert (U' : (inject_Z j < pow10 n0)%Q).
  { rewrite <- Hmag, <- Eb.
    replace (pow10 n0) with (pow10 (Z.of_nat k + p)) by (f_equal; unfold p; lia).
    rewrite pow10_add. apply Qmult_lt_compat_r; [lra | exact U]. }
  assert (Hn0 : 0 < n0).
  { apply pow10_lt_inv. rewrite pow10_0.
    eapply Qle_lt_trans; [|exact U'].
    change 1%Q with (inject_Z 1). rewrite <- Zle_Qle. lia. }
  rewrite <- pow10_Z in L', U' by lia.
  rewrite <- Zle_Qle in L'. rewrite <- Zlt_Qlt in U'. lia.
Qed.

Lemma cert_candidate n0 :
  1 <= n0 → 10 ^ (n0 - 1) <= j < 10 ^ n0 →
  candidate x (mag x) n0 (Z.to_nat n0) ≠ None.
Proof.
  intros Hn0 Hc. unfold candidate.
  rewrite Z2Nat.id by lia. replace (n0 - n0) with 0 by lia.
  assert (Elo : Qfloor (mag x / pow10 0) = j).
  { rewrite <- (Qfloor_Z j). apply Qfloor_comp. rewrite Hmag.
    unfold Qdiv. rewrite pow10_0. field. }
  rewrite Elo.
  assert (Ok : has_digits (Z.to_nat n0) j && reads_as x j 0 = true).
  { apply andb_true_iff. split.
    - apply has_digits_spec. rewrite Z2Nat.id by lia. exact Hc.
    - unfold reads_as.
      rewrite (round_mag_comp false (inject_Z j * pow10 0) (inject_Z j))
        by (rewrite pow10_0; ring).
      rewrite Hround. apply Number_eqb_refl. }
  rewrite Ok.
  clear Ok.
  destruct (has_digits _ _ && reads_as x _ _); [|done].
  destruct (_ ?= _)%Q; [destruct (Z.even j)| |]; done.
Qed.

Lemma candidate_integer n0 k sd p :
  (0 < k)%nat →
  candidate x (mag x) n0 k = Some (sd, p) →
  (∀ k', (1 <= k' < k)%nat → candidate x (mag x) n0 k' = None) →
  (inject_Z sd * pow10 p == inject_Z j)%Q.
Proof.
  intros Hk Hc Hmin.
  destruct (candidate_spec _ _ _ _ _ _ Hc) as [Hd Hr].
  destruct (reads_as_close sd p Hr) as [C1 C2].
  destruct (Z_le_gt_dec 0 p) as [Hp|Hp].
  { (* no digit after the point: an integer close to [j] *)
    rewrite <- pow10_Z, <- inject_Z_mult in * by lia.
    rewrite (Z_close (sd * 10 ^ p) j); [reflexivity | lra | lra]. }
  (* digits after the point: fewer digits would have done *)
  exfalso.
  assert (Cert : 1 <= n0 ∧ 10 ^ (n0 - 1) <= j < 10 ^ n0 ∧ n0 < Z.of_nat k).
  { revert Hc. unfold candidate.
    set (p0 := n0 - Z.of_nat k).
    set (lo := Qfloor (mag x / pow10 p0)).
    destruct (lo + 1 =? 10 ^ Z.of_nat k) eqn:Carry.
    - (* the upper neighbour is a power of ten *)
      apply Z.eqb_eq in Carry.
      assert (Hlo : has_digits k lo = true).
      { apply has_digits_spec.
        assert (10 ^ (Z.of_nat k - 1) < 10 ^ Z.of_nat k)
          by (apply Z.pow_lt_mono_r; lia).
        lia. }
      destruct (has_digits_lo_cert n0 k Hk Hlo) as [A B].
      intros Hc. assert (p = p0 ∨ p = p0 + 1) as Hpp.
      { destruct (has_digits k lo && reads_as x lo p0);
          destruct (has_digits k (10 ^ (Z.of_nat k - 1)) && reads_as x _ _);
          try discriminate;
          [destruct (_ ?= _)%Q; [destruct (Z.even lo)| |]| |];
          injection Hc as _ <-; auto. }
      unfold p0 in Hpp. repeat split; try lia.
    - apply Z.eqb_neq in Carry.
      destruct (has_digits k lo) eqn:Hlo.
      + destruct (has_digits_lo_cert n0 k Hk Hlo) as [A B].
        intros Hc. assert (p = p0) as Hpp.
        { destruct (true && reads_as x lo p0);
            destruct (has_digits k (lo + 1) && reads_as x _ _);
            try discriminate;
            [destruct (_ ?= _)%Q; [destruct (Z.even lo)| |]| |];
            injection Hc as _ <-; auto. }
        unfold p0 in Hpp. repeat split; try lia.
      + (* only the upper neighbour has [k] digits: it is [10^(k-1)] *)
        cbn [andb]. destruct (has_digits k (lo + 1) && reads_as x (lo + 1) p0) eqn:Hhi;
          [|discriminate].
        intros Hc'. injection Hc' as <- <-.
        apply andb_true_iff in Hhi as [Hhi _]. apply has_digits_spec in Hhi.
        assert (Hlo' : lo < 10 ^ (Z.of_nat k - 1)).
        { destruct (Z_lt_le_dec lo (10 ^ (Z.of_nat k - 1))) as [?|G]; [assumption|].
          assert (has_digits k lo = true) by (apply has_digits_spec; lia).
          congruence. }
        assert (Elo : lo + 1 = 10 ^ (Z.of_nat k - 1)) by lia.
        destruct (Qfloor_bounds _ _ (eq_refl lo)) as [_ F2].
        fold lo in F2.
        pose proof (scaled10_back (mag x) p0) as Eb.
        pose proof (pow10_pos p0) as Pp.
        assert (J : (inject_Z j < inject_Z (lo + 1) * pow10 p0)%Q).
        { rewrite <- Hmag, <- Eb. apply Qmult_lt_compat_r; [exact Pp|].
          rewrite inject_Z_plus. exact F2. }
        assert (Q1 : (inject_Z (lo + 1) * pow10 p0 == pow10 (n0 - 1))%Q).
        { rewrite Elo, pow10_Z, <- pow10_add by lia.
          replace (Z.of_nat k - 1 + p0) with (n0 - 1) by (unfold p0; lia).
          reflexivity. }
        rewrite Q1 in J, C1, C2.
        destruct (Z_le_gt_dec 1 n0) as [G|G].
        * rewrite <- pow10_Z in J, C1, C2 by lia.
          assert (10 ^ (n0 - 1) = j) by (apply Z_close; lra).
          rewrite <- Zlt_Qlt in J. lia.
        * assert (pow10 (n0 - 1) < pow10 0)%Q by (apply pow10_lt; lia).
          rewrite pow10_0 in H.
          assert (1 <= inject_Z j)%Q
            by (change 1%Q with (inject_Z 1); rewrite <- Zle_Qle; lia).
          lra. }
  destruct Cert as (A & B & C).
  apply (cert_candidate n0 A B). apply Hmin. lia.
Qed.

End Integer.

Lemma round_mag_sign s t q :
  round_mag s q =
  match round_mag t q with
  | NaN => NaN
  | Infinity _ => Infinity s
  | Zero _ => Zero s
  | Finite _ m e => Finite s m e
  end.
Proof.
  unfold round_mag. destruct (_ || _); [reflexivity|].
  destruct (_ >? emax); reflexivity.
Qed.

(** An integer below [2^52] is a Number, and it is written with all its
    digits, in plain notation. *)
Lemma integer_toString sg j :
  1 <= j < 2 ^ 52 →
  ∃ m e ds n,
    round_mag sg (inject_Z j) = Finite sg m e
    ∧ (mag (Finite sg m e) == inject_Z j)%Q
    ∧ toString_chars (Finite sg m e) = sign_chars sg ++ render ds n
    ∧ Forall is_decimal ds ∧ ds ≠ [] ∧ plain n
    ∧ (inject_Z (digits_val ds) * pow10 (n - Z.of_nat (length ds)) == inject_Z j)%Q.
Proof.
  intros Hj.
  assert (J1 : (1 <= inject_Z j)%Q)
    by (change 1%Q with (inject_Z 1); rewrite <- Zle_Qle; lia).
  assert (J2 : (inject_Z j < inject_Z (2 ^ 52))%Q) by (rewrite <- Zlt_Qlt; lia).
  destruct (round_mag_exact false j 0) as (m & e & Hr & Hv);
    [lia | unfold emin; lia | |].
  { change (2 ^ 0)%Q with 1%Q. rewrite Qmult_1_r.
    apply Qlt_le_weak. eapply Qlt_le_trans; [exact J2|].
    rewrite pow2_Z by lia. apply pow2_le. lia. }
  rewrite (round_mag_comp false _ (inject_Z j)) in Hr
    by (change (2 ^ 0)%Q with 1%Q; ring).
  change (2 ^ 0)%Q with 1%Q in Hv. rewrite Qmult_1_r in Hv.
  destruct (round_mag_normal false (inject_Z j)) as (m' & e' & Hr' & Hm).
  { eapply Qle_trans; [|exact J1]. change 1%Q with (2 ^ 0)%Q. apply pow2_le. lia. }
  { apply Qlt_le_weak. eapply Qlt_le_trans; [exact J2|].
    rewrite pow2_Z by lia. apply pow2_le. lia. }
  rewrite Hr in Hr'. injection Hr' as <- <-.
  assert (He : e <= -1).
  { destruct (Z_le_gt_dec e (-1)) as [?|G]; [assumption|exfalso].
    assert (P : (1 <= 2 ^ e)%Q) by (change 1%Q with (2 ^ 0)%Q; apply pow2_le; lia).
    assert (M : (inject_Z (2 ^ 52) <= inject_Z (Z.pos m))%Q) by (rewrite <- Zle_Qle; exact Hm).
    assert (0 < inject_Z (2 ^ 52))%Q by reflexivity.
    nra. }
  exists m, e.
  destruct (toString_Finite sg m e)
    as (ds & n & k & sd & p & _ & Hs & Hds & Hne & Er & Ed & Hp & R0 & R1 & R2).
  exists ds, n.
  assert (Ej : (rendered (Finite sg m e) == inject_Z j)%Q).
  { rewrite Er. destruct Hp as [[Hc Hmin]|Hx].
    - assert (Hk : (0 < k)%nat).
      { destruct k; [|lia]. exfalso.
        apply candidate_spec in Hc as [Hd _]. apply has_digits_spec in Hd.
        change (10 ^ (Z.of_nat 0 - 1)) with 0 in Hd. change (10 ^ Z.of_nat 0) with 1 in Hd.
        assert (sd = 0) by lia. subst sd.
        rewrite Er in R0. change (inject_Z 0) with 0%Q in R0.
        rewrite Qmult_0_l in R0. lra. }
      exact (candidate_integer m e j Hj He Hv Hr _ k sd p Hk Hc Hmin).
    - rewrite Hx. exact Hv. }
  split; [|split; [|split; [|split; [|split; [|split]]]]].
  - rewrite (round_mag_sign sg false), Hr. reflexivity.
  - exact Hv.
  - exact Hs.
  - exact Hds.
  - exact Hne.
  - rewrite Ej in R1, R2. split.
    + assert (0 < n); [|lia]. apply pow10_lt_inv. rewrite pow10_0. lra.
    + assert (n - 1 < 16); [|lia]. apply pow10_lt_inv.
      eapply Qle_lt_trans; [exact R1|]. eapply Qlt_le_trans; [exact J2|].
      rewrite <- pow10_Z by lia. rewrite <- Zle_Qle. lia.
  - rewrite Ed. exact Ej.
Qed.

End StringFacts.

(** ** The helper [round] *)

Module RoundFacts.
Import JSNumber JSString App NumberFacts StringFacts.

Local Open Scope Z_scope.

(** [round(x, 2)] on lists of characters. *)
Lemma round_unfold x :
  round x num_2
  = StringToNumber_chars
      (toString_chars
         (Math_round (StringToNumber_chars (toString_chars x ++ chars "e2")))
       ++ chars "e-2").
Proof.
  unfold round, StringToNumber.
  change (Number_toString num_2) with "2"%string.
  rewrite !chars_append, !chars_toString, <- !app_assoc. reflexivity.
Qed.

(** *** Signs: a number that is not negative is not rounded to a negative
    one *)















(** *** What [round(x, 2)] computes *)

(** The relative error of one rounding, [2^-52]. *)
Definition rel : Q := 1 # 4503599627370496.

(** In the normal range, rounding gives a Number with a full significand,
    within [rel] of what was rounded. *)
Lemma round_mag_rel s q :
  (2 ^ (-1022) <= q)%Q → (q <= 2 ^ 1000)%Q →
  ∃ m e, round_mag s q = Finite s m e ∧ 2 ^ 52 <= Zpos m
         ∧ (mag (Finite s m e) - q <= q * rel)%Q
         ∧ (q - mag (Finite s m e) <= q * rel)%Q.
Proof.
  intros L U. destruct (round_mag_normal s q L U) as (m & e & Hr & Hm).
  exists m, e. split; [exact Hr|]. split; [exact Hm|].
  apply round_mag_Finite in Hr as (_ & Hq & _ & _ & H1 & H2).
  assert (Hh : (2 ^ (e - 1) * 2 == 2 ^ e)%Q).
  { replace e with (e - 1 + 1) at 2 by lia. rewrite pow2_succ. ring. }
  assert (M : (inject_Z (2 ^ 52) <= inject_Z (Z.pos m))%Q) by (rewrite <- Zle_Qle; exact Hm).
  change (inject_Z (2 ^ 52)) with (4503599627370496 # 1)%Q in M.
  pose proof (pow2_pos (e - 1)) as Ph.
  cbn [mag]. unfold rel.
  set (h := (2 ^ (e - 1))%Q) in *. set (P := (2 ^ e)%Q) in *.
  set (M' := inject_Z (Z.pos m)) in *. clearbody h P M'.
  assert (A : (4503599627370496 * P <= M' * P)%Q)
    by (apply Qmult_le_compat_r; [exact M | lra]).
  split; lra.
Qed.

(** The decimal that [Number::toString] writes for [x], with its sign. *)
Definition decimal (x : Number) : Q :=
  if is_neg x then (- rendered x)%Q else rendered x.

(** The nearest integer, the one toward [+Infinity] when there are two. *)
Definition half_up (q : Q) : Z := Qfloor (q + (1 # 2)).

Lemma Math_round_Finite s m e :
  Math_round (Finite s m e)
  = if half_up (val (Finite s m e)) =? 0 then Zero s
    else of_Z (half_up (val (Finite s m e))).
Proof. reflexivity. Qed.

Lemma pow10_2 a : (pow10 (a + 2) == pow10 a * 100)%Q.
Proof. rewrite pow10_add. reflexivity. Qed.

Lemma pow10_m2 a : (pow10 (a + -2) == pow10 a / 100)%Q.
Proof. rewrite pow10_add. reflexivity. Qed.

Lemma plain_e2 : Forall plain_char (chars "e2").
Proof.
  constructor; [right; right; left; reflexivity|].
  constructor; [left; reflexivity|]. constructor.
Qed.

Lemma plain_em2 : Forall plain_char (chars "e-2").
Proof.
  constructor; [right; right; left; reflexivity|].
  constructor; [right; right; right; reflexivity|].
  constructor; [left; reflexivity|]. constructor.
Qed.

(** The first conversion of [round]: the decimal written for [x], with
    "e2" appended, is read as the Number nearest to a hundred times that
    decimal. *)
Lemma shift_left_2 s m e :
  plain (snd (decimal_of (Finite s m e))) →
  StringToNumber_chars (toString_chars (Finite s m e) ++ chars "e2")
  = round_mag s (rendered (Finite s m e) * 100).
Proof.
  intros Hn.
  destruct (toString_Finite s m e)
    as (ds & n & k & sd & p & Ed & Hs & Hds & Hne & _ & Ev & _).
  rewrite Ed in Hn. cbn [snd] in Hn.
  rewrite Hs, <- app_assoc.
  rewrite (StringToNumber_render s ds n (chars "e2") 2 Hds Hne Hn plain_e2 eq_refl).
  apply round_mag_comp. rewrite pow10_2, <- Ev. ring.
Qed.

(** The second one: an integer, with "e-2" appended, is read as the Number
    nearest to a hundredth of it. *)
Lemma shift_right_2 j :
  Z.abs j < 2 ^ 52 →
  StringToNumber_chars (toString_chars (of_Z j) ++ chars "e-2")
  = of_Q (inject_Z j / 100).
Proof.
  intros Hj. pose proof plain_em2 as Hsuf.
  assert (Main : ∀ sg a, 1 <= a < 2 ^ 52 →
            StringToNumber_chars (toString_chars (round_mag sg (inject_Z a)) ++ chars "e-2")
            = round_mag sg (inject_Z a / 100)).
  { intros sg a Ha.
    destruct (integer_toString sg a Ha)
      as (m & e & ds & n & Hr & _ & Hs & Hds & Hne & Hn & Hv).
    rewrite Hr, Hs, <- app_assoc.
    rewrite (StringToNumber_render sg ds n (chars "e-2") (-2) Hds Hne Hn Hsuf eq_refl).
    apply round_mag_comp. rewrite pow10_m2, <- Hv. unfold Qdiv. ring. }
  destruct (Z.compare_spec j 0) as [->|Hlt|Hgt].
  - vm_compute. reflexivity.
  - assert (N : (inject_Z j < 0)%Q) by (change 0%Q with (inject_Z 0); rewrite <- Zlt_Qlt; lia).
    assert (N' : (inject_Z j / 100 < 0)%Q)
      by (apply Qlt_shift_div_r; [reflexivity | lra]).
    unfold of_Z. rewrite (of_Q_neg _ N), (of_Q_neg _ N').
    rewrite (round_mag_comp true (- inject_Z j) (inject_Z (- j)))
      by (rewrite inject_Z_opp; reflexivity).
    rewrite (round_mag_comp true (- (inject_Z j / 100)) (inject_Z (- j) / 100))
      by (rewrite inject_Z_opp; field).
    apply Main. lia.
  - assert (N : (0 < inject_Z j)%Q) by (change 0%Q with (inject_Z 0); rewrite <- Zlt_Qlt; lia).
    assert (N' : (0 < inject_Z j / 100)%Q)
      by (apply Qlt_shift_div_l; [reflexivity | lra]).
    unfold of_Z. rewrite (of_Q_pos _ N), (of_Q_pos _ N').
    apply Main. lia.
Qed.

Lemma half_up_bounds q :
  (inject_Z (half_up q) - (1 # 2) <= q ∧ q < inject_Z (half_up q) + (1 # 2))%Q.
Proof.
  unfold half_up. destruct (Qfloor_bounds (q + (1 # 2))%Q _ eq_refl) as [H1 H2].
  split; lra.
Qed.

Lemma of_Q_signed (s : bool) (q : Q) :
  (0 < q)%Q → of_Q (if s then - q else q)%Q = round_mag s q.
Proof.
  intros H. destruct s.
  - rewrite of_Q_neg by lra. apply round_mag_comp. ring.
  - apply of_Q_pos, H.
Qed.

(** [round(x, 2)], for a number [x] written in plain notation: the decimal
    written for [x] is multiplied by 100 and rounded to a Number, that
    Number to the nearest integer (ties toward [+Infinity]), and the integer
    divided by 100 is rounded to a Number. *)
Lemma round_2_plain s m e :
  plain (snd (decimal_of (Finite s m e))) →
  (rendered (Finite s m e) * 100 <= 2 ^ 51)%Q →
  round (Finite s m e) num_2
  = of_Q (inject_Z (half_up (val (of_Q (decimal (Finite s m e) * 100)))) / 100).
Proof.
  intros Hn Hb. rewrite round_unfold.
  rewrite (shift_left_2 s m e Hn).
  destruct (toString_Finite s m e)
    as (ds & n & k & sd & p & Ed & _ & _ & _ & _ & _ & _ & R0 & R1 & _).
  rewrite Ed in Hn. cbn [snd] in Hn.
  set (x := Finite s m e) in *.
  assert (Hq : (pow10 (-4) <= rendered x * 100)%Q).
  { assert (pow10 (-6) <= pow10 (n - 1))%Q by (apply pow10_le; unfold plain in Hn; lia).
    assert (pow10 (-4) == pow10 (-6) * 100)%Q by reflexivity. lra. }
  assert (Hy : of_Q (decimal x * 100) = round_mag s (rendered x * 100)).
  { unfold decimal, x. cbn [is_neg]. fold x.
    rewrite <- (of_Q_signed s (rendered x * 100)) by lra.
    apply of_Q_comp. destruct s; ring. }
  rewrite Hy.
  destruct (round_mag_rel s (rendered x * 100)) as (my & ey & Hr & Hm & E1 & E2).
  { eapply Qle_trans; [|exact Hq].
    apply Qle_trans with (2 ^ (-14))%Q; [apply pow2_le; lia|].
    unfold Qle. vm_compute. discriminate. }
  { eapply Qle_trans; [exact Hb|]. apply pow2_le. lia. }
  rewrite Hr, Math_round_Finite.
  set (j := half_up (val (Finite s my ey))).
  destruct (j =? 0) eqn:Ej.
  - apply Z.eqb_eq in Ej. rewrite Ej. vm_compute. reflexivity.
  - apply shift_right_2.
    destruct (half_up_bounds (val (Finite s my ey))) as [B1 B2]. fold j in B1, B2.
    change (2 ^ 51)%Q with (2251799813685248 # 1)%Q in Hb.
    unfold rel in E1, E2.
    assert (Hv : (- mag (Finite s my ey) <= val (Finite s my ey)
                  ∧ val (Finite s my ey) <= mag (Finite s my ey))%Q).
    { pose proof (mag_pos s my ey). unfold val. destruct s; cbn [is_neg]; split; lra. }
    assert (A : (inject_Z j < inject_Z (2 ^ 52))%Q)
      by (change (inject_Z (2 ^ 52)) with (4503599627370496 # 1)%Q; lra).
    assert (B : (inject_Z (- 2 ^ 52) < inject_Z j)%Q)
      by (change (inject_Z (- 2 ^ 52)) with (-4503599627370496 # 1)%Q; lra).
    rewrite <- Zlt_Qlt in A, B. lia.
Qed.

(** A half-integer that fits in 53 bits is a Number. *)
Lemma of_Q_half k :
  Z.abs (2 * k + 1) < 2 ^ 53 →
  (val (of_Q (inject_Z k + (1 # 2))) == inject_Z k + (1 # 2))%Q.
Proof.
  intros Hk.
  assert (Exact : ∀ sg a, 0 < a < 2 ^ 53 →
            ∃ m e, round_mag sg (inject_Z a * 2 ^ (-1)) = Finite sg m e
                   ∧ (mag (Finite sg m e) == inject_Z a * 2 ^ (-1))%Q).
  { intros sg a Ha. apply round_mag_exact; [exact Ha | unfold emin; lia|].
    assert (inject_Z a < inject_Z (2 ^ 53))%Q by (rewrite <- Zlt_Qlt; lia).
    change (inject_Z (2 ^ 53)) with (9007199254740992 # 1)%Q in H.
    change (2 ^ (-1))%Q with (1 # 2)%Q.
    apply Qle_trans with (2 ^ 53)%Q; [|apply pow2_le; lia].
    change (2 ^ 53)%Q with (9007199254740992 # 1)%Q. lra. }
  change (2 ^ (-1))%Q with (1 # 2)%Q in Exact.
  destruct (Z_lt_le_dec k 0) as [Hneg|Hpos].
  - assert (N : (inject_Z k + (1 # 2) < 0)%Q).
    { assert (inject_Z k <= inject_Z (-1))%Q by (rewrite <- Zle_Qle; lia).
      change (inject_Z (-1)) with (-1 # 1)%Q in H. lra. }
    rewrite (of_Q_neg _ N).
    destruct (Exact true (- (2 * k + 1))) as (m & e & Hr & Hv); [lia|].
    rewrite (round_mag_comp true _ (inject_Z (- (2 * k + 1)) * (1 # 2))).
    + rewrite Hr. unfold val. cbn [is_neg]. rewrite Hv.
      rewrite inject_Z_opp, inject_Z_plus, inject_Z_mult.
      change (inject_Z 2) with 2%Q. change (inject_Z 1) with 1%Q. ring.
    + rewrite inject_Z_opp, inject_Z_plus, inject_Z_mult.
      change (inject_Z 2) with 2%Q. change (inject_Z 1) with 1%Q. ring.
  - assert (N : (0 < inject_Z k + (1 # 2))%Q).
    { assert (inject_Z 0 <= inject_Z k)%Q by (rewrite <- Zle_Qle; lia).
      change (inject_Z 0) with 0%Q in H. lra. }
    rewrite (of_Q_pos _ N).
    destruct (Exact false (2 * k + 1)) as (m & e & Hr & Hv); [lia|].
    rewrite (round_mag_comp false _ (inject_Z (2 * k + 1) * (1 # 2))).
    + rewrite Hr. unfold val. cbn [is_neg]. rewrite Hv.
      rewrite inject_Z_plus, inject_Z_mult.
      change (inject_Z 2) with 2%Q. change (inject_Z 1) with 1%Q. ring.
    + rewrite inject_Z_plus, inject_Z_mult.
      change (inject_Z 2) with 2%Q. change (inject_Z 1) with 1%Q. ring.
Qed.

(** A decimal that ends in 5 after the second place goes to the hundredth
    toward [+Infinity]. *)
Lemma round_2_tie s m e k :
  plain (snd (decimal_of (Finite s m e))) →
  (rendered (Finite s m e) * 100 <= 2 ^ 51)%Q →
  (decimal (Finite s m e) * 100 == inject_Z k + (1 # 2))%Q →
  round (Finite s m e) num_2 = of_Q (inject_Z (k + 1) / 100).
Proof.
  intros Hn Hb Hk. rewrite (round_2_plain s m e Hn Hb).
  assert (Ha : Z.abs (2 * k + 1) < 2 ^ 53).
  { change (2 ^ 51)%Q with (2251799813685248 # 1)%Q in Hb.
    assert (B : (- (2251799813685248 # 1) <= inject_Z k + (1 # 2)
                 ∧ inject_Z k + (1 # 2) <= 2251799813685248 # 1)%Q).
    { rewrite <- Hk. unfold decimal. destruct s; cbn [is_neg].
      - destruct (toString_Finite true m e)
          as (_ & _ & _ & _ & _ & _ & _ & _ & _ & _ & _ & _ & R0 & _).
        split; lra.
      - destruct (toString_Finite false m e)
          as (_ & _ & _ & _ & _ & _ & _ & _ & _ & _ & _ & _ & R0 & _).
        split; lra. }
    assert (A1 : (inject_Z (- 2 ^ 52) < inject_Z k)%Q)
      by (change (inject_Z (- 2 ^ 52)) with (-4503599627370496 # 1)%Q; lra).
    assert (A2 : (inject_Z k < inject_Z (2 ^ 52))%Q)
      by (change (inject_Z (2 ^ 52)) with (4503599627370496 # 1)%Q; lra).
    rewrite <- Zlt_Qlt in A1, A2. lia. }
  rewrite (of_Q_comp _ _ Hk).
  unfold half_up.
  rewrite (Qfloor_comp _ (inject_Z (k + 1))); [now rewrite Qfloor_Z|].
  rewrite (of_Q_half k Ha), inject_Z_plus.
  change (inject_Z 1) with 1%Q. ring.
Qed.

(** *** The error of [round(x, 2)] and of the arithmetic around it *)

(** A positive Number with a full significand. *)
Definition normal (x : Number) : Prop :=
  ∃ m e, x = Finite false m e ∧ 2 ^ 52 <= Zpos m.

(** A positive finite Number. *)
Definition positive_finite (x : Number) : Prop :=
  ∃ m e, x = Finite false m e.

Lemma normal_positive x : normal x → positive_finite x.
Proof. intros (m & e & H & _). now exists m, e. Qed.

(** [x] is a normal positive Number within [rel] of [q]. *)
Definition near (x : Number) (q : Q) : Prop :=
  normal x ∧ (mag x - q <= q * rel)%Q ∧ (q - mag x <= q * rel)%Q.

Lemma round_mag_near q :
  (2 ^ (-1022) <= q)%Q → (q <= 2 ^ 1000)%Q → near (round_mag false q) q.
Proof.
  intros L U. destruct (round_mag_rel false q L U) as (m & e & Hr & Hm & E1 & E2).
  rewrite Hr. split; [exists m, e; split; [reflexivity | exact Hm]|].
  split; assumption.
Qed.

Lemma small_range q : (1 # 1000 <= q)%Q → (q <= 10 ^ 15)%Q →
  (2 ^ (-1022) <= q)%Q ∧ (q <= 2 ^ 1000)%Q.
Proof.
  intros L U. split.
  - apply Qle_trans with (2 ^ (-10))%Q; [apply pow2_le; lia|].
    change (2 ^ (-10))%Q with (1 # 1024)%Q. lra.
  - apply Qle_trans with (2 ^ 50)%Q; [|apply pow2_le; lia].
    change (2 ^ 50)%Q with (1125899906842624 # 1)%Q.
    change (10 ^ 15)%Q with (1000000000000000 # 1)%Q in U. lra.
Qed.

(** The decimal written for a normal Number is within [rel] of it. *)
Lemma rendered_close m e :
  2 ^ 52 <= Zpos m →
  let x := Finite false m e in
  (rendered x - mag x <= mag x * rel)%Q ∧ (mag x - rendered x <= mag x * rel)%Q.
Proof.
  intros Hm x.
  destruct (toString_Finite false m e)
    as (ds & n & k & sd & p & _ & _ & _ & _ & Er & _ & Hp & _).
  fold x in Er. pose proof (mag_pos false m e) as Px. fold x in Px.
  assert (Pr : (0 < rel)%Q) by reflexivity.
  destruct (picked_reads m e k sd p Hp) as [H|H].
  - apply round_mag_Finite in H as (_ & _ & _ & _ & H1 & H2).
    rewrite <- Er in H1, H2.
    assert (Hh : (2 ^ (e - 1) * 2 == 2 ^ e)%Q).
    { replace e with (e - 1 + 1) at 2 by lia. rewrite pow2_succ. ring. }
    assert (M : (inject_Z (2 ^ 52) <= inject_Z (Z.pos m))%Q) by (rewrite <- Zle_Qle; exact Hm).
    change (inject_Z (2 ^ 52)) with (4503599627370496 # 1)%Q in M.
    pose proof (pow2_pos (e - 1)) as Ph.
    unfold x in *. cbn [mag] in *. unfold rel in *.
    set (h := (2 ^ (e - 1))%Q) in *. set (P := (2 ^ e)%Q) in *.
    set (M' := inject_Z (Z.pos m)) in *. clearbody h P M'.
    assert (A : (4503599627370496 * P <= M' * P)%Q)
      by (apply Qmult_le_compat_r; [exact M | lra]).
    split; lra.
  - rewrite Er, H. fold x. split; nra.
Qed.

(** [round(x, 2)] of a normal Number between 0.009 and 10^12 is a normal
    Number, within 0.005 of [x], up to the roundings. *)
Lemma round_2_error x :
  normal x → (9 # 1000 <= mag x)%Q → (mag x <= 10 ^ 12)%Q →
  normal (round x num_2)
  ∧ (mag (round x num_2) - mag x <= (1 # 200) + 4 * rel * (mag x + 1))%Q
  ∧ (mag x - mag (round x num_2) <= (1 # 200) + 4 * rel * (mag x + 1))%Q.
Proof.
  intros (m & e & -> & Hm) L U.
  change (10 ^ 12)%Q with (1000000000000 # 1)%Q in U.
  destruct (rendered_close m e Hm) as [C1 C2].
  destruct (toString_Finite false m e)
    as (ds & n & k & sd & p & Ed & _ & _ & _ & _ & _ & _ & R0 & R1 & R2).
  set (x := Finite false m e) in *.
  unfold rel in C1, C2.
  assert (Hn : plain (snd (decimal_of x))).
  { rewrite Ed. cbn [snd]. split.
    - assert (-3 < n); [|lia]. apply pow10_lt_inv.
      eapply Qle_lt_trans; [|exact R2].
      change (pow10 (-3)) with (1 # 1000)%Q. lra.
    - assert (n - 1 < 13); [|lia]. apply pow10_lt_inv.
      eapply Qle_lt_trans; [exact R1|].
      change (pow10 13) with (10000000000000 # 1)%Q. lra. }
  assert (Hb : (rendered x * 100 <= 2 ^ 51)%Q).
  { change (2 ^ 51)%Q with (2251799813685248 # 1)%Q. lra. }
  subst x. rewrite (round_2_plain false m e Hn Hb).
  set (x := Finite false m e) in *.
  assert (Hy : of_Q (decimal x * 100) = round_mag false (rendered x * 100)).
  { unfold decimal, x. cbn [is_neg]. apply of_Q_pos. fold x. lra. }
  rewrite Hy.
  destruct (small_range (rendered x * 100)) as [Q1 Q2];
    [lra | change (10 ^ 15)%Q with (1000000000000000 # 1)%Q; lra|].
  destruct (round_mag_rel false (rendered x * 100) Q1 Q2) as (my & ey & Hr & _ & Y1 & Y2).
  rewrite Hr. unfold val. cbn [is_neg].
  set (y := Finite false my ey) in *.
  destruct (half_up_bounds (mag y)) as [J1 J2].
  set (j := half_up (mag y)) in *.
  unfold rel in Y1, Y2.
  assert (Hj : (1 <= inject_Z j)%Q).
  { assert (A : (inject_Z 0 < inject_Z j)%Q) by (change (inject_Z 0) with 0%Q; lra).
    rewrite <- Zlt_Qlt in A. change 1%Q with (inject_Z 1). rewrite <- Zle_Qle. lia. }
  assert (Pj : (0 < inject_Z j / 100)%Q) by (apply Qlt_shift_div_l; [reflexivity | lra]).
  assert (Dj : (inject_Z j / 100 * 100 == inject_Z j)%Q) by field.
  rewrite (of_Q_pos _ Pj).
  destruct (small_range (inject_Z j / 100)) as [Z1 Z2];
    [lra | change (10 ^ 15)%Q with (1000000000000000 # 1)%Q; lra|].
  destruct (round_mag_near (inject_Z j / 100) Z1 Z2) as (Hnorm & N1 & N2).
  split; [exact Hnorm|].
  unfold rel in *. split; lra.
Qed.

(** The arithmetic of the derivations, on normal Numbers. *)

Lemma mag_60 : (mag num_60 == 60)%Q.
Proof. reflexivity. Qed.

Lemma div_60_near c :
  positive_finite c → (1 # 1000 <= 60 / mag c)%Q → (60 / mag c <= 10 ^ 15)%Q →
  near (div num_60 c) (60 / mag c).
Proof.
  intros (m & e & ->) L U.
  destruct (small_range _ L U) as [Q1 Q2].
  unfold div, num_60. cbn [xorb].
  rewrite (round_mag_comp false _ (60 / mag (Finite false m e))).
  - apply round_mag_near; assumption.
  - unfold Qdiv. apply Qmult_comp; [reflexivity|]. reflexivity.
Qed.

Lemma sub_near x y :
  positive_finite x → positive_finite y → (1 # 1000 <= mag x - mag y)%Q → (mag x - mag y <= 10 ^ 15)%Q →
  near (sub x y) (mag x - mag y).
Proof.
  intros (m & e & ->) (m' & e' & ->) L U.
  destruct (small_range _ L U) as [Q1 Q2].
  unfold sub, neg, add.
  assert (E : (val (Finite false m e) + val (Finite (negb false) m' e')
               == mag (Finite false m e) - mag (Finite false m' e'))%Q).
  { unfold val. cbn [is_neg negb mag]. ring. }
  rewrite (of_Q_comp _ _ E), of_Q_pos by lra.
  apply round_mag_near; assumption.
Qed.

Lemma add_near x y :
  positive_finite x → positive_finite y → (1 # 1000 <= mag x + mag y)%Q → (mag x + mag y <= 10 ^ 15)%Q →
  near (add x y) (mag x + mag y).
Proof.
  intros (m & e & ->) (m' & e' & ->) L U.
  destruct (small_range _ L U) as [Q1 Q2].
  unfold add.
  assert (E : (val (Finite false m e) + val (Finite false m' e')
               == mag (Finite false m e) + mag (Finite false m' e'))%Q).
  { unfold val. cbn [is_neg mag]. reflexivity. }
  rewrite (of_Q_comp _ _ E), of_Q_pos by lra.
  apply round_mag_near; assumption.
Qed.

End RoundFacts.

(** ** The round trip: drive time from the cadence, and the cadence back *)

Module TripFacts.
Import JSNumber JSString App NumberFacts StringFacts RoundFacts.

Local Open Scope Z_scope.

(** [Number.isFinite]. *)
Definition finite (x : Number) : Prop :=
  match x with
  | Zero _ | Finite _ _ _ => True
  | _ => False
  end.

Lemma val_pos_finite x : (0 < val x)%Q → positive_finite x ∧ (val x == mag x)%Q.
Proof.
  destruct x as [|s|s|s m e]; unfold val; simpl; try lra.
  - destruct s; simpl; lra.
  - destruct s; simpl; lra.
  - pose proof (mag_pos s m e) as P. simpl in P.
    destruct s; simpl; intros H; [lra|]. split; [now exists m, e | reflexivity].
Qed.

Lemma normal_val x : normal x → (val x == mag x)%Q ∧ (0 < mag x)%Q ∧ is_neg x = false.
Proof.
  intros (m & e & -> & _). unfold val. cbn [is_neg].
  split; [reflexivity|]. split; [apply (mag_pos false m e) | reflexivity].
Qed.

(** Subtracting and adding a recover time that is zero or positive. *)
Lemma sub_recover t r q :
  near t q → finite r → (0 <= val r)%Q →
  (1 # 100 <= q - val r)%Q → (q <= 60)%Q →
  normal (sub t r)
  ∧ (mag (sub t r) - (q - val r) <= 130 * rel)%Q
  ∧ ((q - val r) - mag (sub t r) <= 130 * rel)%Q.
Proof.
  intros (Nt & T1 & T2) Fr Hr L U.
  destruct (normal_val t Nt) as (_ & Pt & _).
  unfold rel in *.
  destruct r as [|sr|sr|sr mr er]; try contradiction.
  - (* zero *)
    destruct Nt as (m & e & -> & Hm).
    assert (E : sub (Finite false m e) (Zero sr) = Finite false m e) by reflexivity.
    rewrite E. split; [exists m, e; split; [reflexivity | exact Hm]|].
    unfold val in *. destruct sr; cbn [is_neg mag] in *; split; lra.
  - pose proof (mag_pos sr mr er) as Pr.
    destruct sr; [unfold val in Hr; cbn [is_neg] in Hr; lra|].
    unfold val in *. cbn [is_neg] in *.
    destruct (sub_near t (Finite false mr er)) as (Nx & X1 & X2).
    + apply normal_positive, Nt.
    + now exists mr, er.
    + lra.
    + change (10 ^ 15)%Q with (1000000000000000 # 1)%Q. lra.
    + split; [exact Nx|]. unfold rel in *. split; lra.
Qed.

Lemma add_recover d r :
  normal d → finite r → (0 <= val r)%Q →
  (1 # 1000 <= mag d)%Q → (mag d + val r <= 1000)%Q →
  normal (add d r)
  ∧ (mag (add d r) - (mag d + val r) <= (mag d + val r) * rel)%Q
  ∧ ((mag d + val r) - mag (add d r) <= (mag d + val r) * rel)%Q.
Proof.
  intros Nd Fr Hr L U. unfold rel in *.
  destruct r as [|sr|sr|sr mr er]; try contradiction.
  - destruct Nd as (m & e & -> & Hm).
    assert (E : add (Finite false m e) (Zero sr) = Finite false m e) by reflexivity.
    rewrite E. split; [exists m, e; split; [reflexivity | exact Hm]|].
    unfold val in *. destruct sr; cbn [is_neg mag] in *; split; lra.
  - pose proof (mag_pos sr mr er) as Pr.
    destruct sr; [unfold val in Hr; cbn [is_neg] in Hr; lra|].
    unfold val in *. cbn [is_neg] in *.
    destruct (add_near d (Finite false mr er)) as (Nx & X1 & X2).
    + apply normal_positive, Nd.
    + now exists mr, er.
    + lra.
    + change (10 ^ 15)%Q with (1000000000000000 # 1)%Q. lra.
    + split; [exact Nx|]. unfold rel in *. split; lra.
Qed.

Local Open Scope Q_scope.

Lemma Qle_cancel_r x y z : 0 < z → x * z <= y * z → x <= y.
Proof. intros Hz H. now apply (Qmult_le_r x y z Hz). Qed.

Lemma Qmult_le_mono a b c d : 0 <= a → a <= b → 0 <= c → c <= d → a * c <= b * d.
Proof.
  intros A B C D. apply Qle_trans with (b * c).
  - apply Qmult_le_compat_r; assumption.
  - rewrite !(Qmult_comm b). apply Qmult_le_compat_r; [assumption | lra].
Qed.

(** The arithmetic of the round trip, on the rationals: [a] is the exact
    stroke duration for the cadence [C], [T] the duration that was stored
    (drive time, rounded, plus recover time), [U] its floating-point sum,
    [Y] the quotient [60 / U] as computed and [C'] its rounding. *)
Section RoundTrip.
Variables C a T U Y C' : Q.
Hypothesis C_lo : 1 <= C.
Hypothesis C_hi : C <= 1000.
Hypothesis a_def : a * C == 60.
Hypothesis T_hi : T - a <= (1 # 200) + (1 # 1000000000000).
Hypothesis T_lo : a - T <= (1 # 200) + (1 # 1000000000000).
Hypothesis U_hi : U - T <= T * rel.
Hypothesis U_lo : T - U <= T * rel.
Hypothesis Y_hi : Y - 60 / U <= 60 / U * rel.
Hypothesis Y_lo : 60 / U - Y <= 60 / U * rel.
Hypothesis C'_hi : C' - Y <= (1 # 200) + 4 * rel * (Y + 1).
Hypothesis C'_lo : Y - C' <= (1 # 200) + 4 * rel * (Y + 1).

Lemma trip_a : 6 # 100 <= a ∧ a <= 60.
Proof.
  split.
  - apply (Qle_cancel_r _ _ C); [lra|]. rewrite a_def. lra.
  - apply (Qle_cancel_r _ _ C); [lra|]. rewrite a_def. lra.
Qed.

Lemma trip_T : 5 # 100 <= T ∧ T <= 61.
Proof. destruct trip_a. split; lra. Qed.

Lemma trip_U : 4 # 100 <= U ∧ U <= 62.
Proof. destruct trip_T. unfold rel in *. split; lra. Qed.

Lemma trip_b : 60 / U * U == 60 ∧ 9 # 10 <= 60 / U ∧ 60 / U <= 1500.
Proof.
  destruct trip_U as [S1 S2].
  assert (E : 60 / U * U == 60) by (field; lra).
  split; [exact E|]. split.
  - apply (Qle_cancel_r _ _ U); [lra|]. rewrite E. lra.
  - apply (Qle_cancel_r _ _ U); [lra|]. rewrite E. lra.
Qed.

Lemma trip_g : 60 / T * T == 60 ∧ 0 <= 60 / T ∧ 60 / T <= 1200.
Proof.
  destruct trip_T as [S1 S2].
  assert (E : 60 / T * T == 60) by (field; lra).
  split; [exact E|]. split.
  - apply (Qle_cancel_r _ _ T); [lra|]. rewrite E. lra.
  - apply (Qle_cancel_r _ _ T); [lra|]. rewrite E. lra.
Qed.

Lemma trip_bg :
  60 / U - 60 / T <= 1500 * rel ∧ 60 / T - 60 / U <= 1500 * rel.
Proof.
  destruct trip_U as [S1 S2]. destruct trip_T as [T1 T2].
  destruct trip_b as (Eb & B1 & B2). destruct trip_g as (Eg & G1 & G2).
  set (b := 60 / U) in *. set (g := 60 / T) in *. clearbody b g.
  assert (P1 : g * (T - U) <= g * (T * rel)).
  { rewrite !(Qmult_comm g). apply Qmult_le_compat_r; assumption. }
  assert (P2 : g * (U - T) <= g * (T * rel)).
  { rewrite !(Qmult_comm g). apply Qmult_le_compat_r; assumption. }
  unfold rel in *. split.
  - apply (Qle_cancel_r _ _ U); [lra|]. lra.
  - apply (Qle_cancel_r _ _ U); [lra|]. lra.
Qed.

Lemma trip_Y : 8 # 10 <= Y ∧ Y <= 1501.
Proof. destruct trip_b as (_ & B1 & B2). unfold rel in *. split; lra. Qed.

(** The cadence derived back is the rounding of [60 / T]. *)
Lemma trip_cadence :
  C' - 60 / T <= (1 # 200) + (1 # 1000000000)
  ∧ 60 / T - C' <= (1 # 200) + (1 # 1000000000).
Proof.
  destruct trip_bg. destruct trip_Y. destruct trip_b as (_ & B1 & B2).
  unfold rel in *. split; lra.
Qed.

Lemma trip_C' : 0 <= C' ∧ C' <= 1201.
Proof.
  destruct trip_cadence. destruct trip_g as (_ & G1 & G2).
  destruct trip_Y. destruct trip_U as [S1 S2]. destruct trip_T as [T1 T2].
  unfold rel in *. split; lra.
Qed.

(** It is as far from the cadence that was entered as the rounding of
    the drive time, scaled by the two cadences, makes it. *)
Lemma trip_distance :
  C' - C <= (1 # 100) + C * C' / 12000
  ∧ C - C' <= (1 # 100) + C * C' / 12000.
Proof.
  destruct trip_cadence as [K1 K2]. destruct trip_C' as [D1 D2].
  destruct trip_g as (Eg & G1 & G2). destruct trip_T as [T1 T2].
  set (g := 60 / T) in *. clearbody g.
  set (dl := (1 # 200) + (1 # 1000000000000)) in *.
  set (et := (1 # 200) + (1 # 1000000000)) in *.
  assert (E1 : (g - C) * T == C * (a - T)).
  { transitivity (g * T - a * C + C * (a - T)); [ring|]. rewrite Eg, a_def. ring. }
  assert (M1 : C * (a - T) <= C * dl).
  { rewrite !(Qmult_comm C). apply Qmult_le_compat_r; lra. }
  assert (M2 : C * (T - a) <= C * dl).
  { rewrite !(Qmult_comm C). apply Qmult_le_compat_r; lra. }
  assert (N1 : g - C <= C * dl * g * (1 # 60)).
  { apply (Qle_cancel_r _ _ T); [lra|].
    assert (X : C * dl * g * (1 # 60) * T == C * dl * (g * T) * (1 # 60)) by ring.
    rewrite X, Eg. lra. }
  assert (N2 : C - g <= C * dl * g * (1 # 60)).
  { apply (Qle_cancel_r _ _ T); [lra|].
    assert (X : C * dl * g * (1 # 60) * T == C * dl * (g * T) * (1 # 60)) by ring.
    rewrite X, Eg. lra. }
  assert (M3 : C * dl * g <= C * dl * (C' + et)).
  { rewrite !(Qmult_comm (C * dl)). apply Qmult_le_compat_r; [lra|].
    apply Qmult_le_0_compat; [lra|]. subst dl. lra. }
  assert (M4 : C * C' <= 1000 * 1201).
  { apply Qmult_le_mono; lra. }
  assert (X2 : C * C' / 12000 == C * C' * (1 # 12000)) by (field).
  rewrite X2. subst dl et.
  split; lra.
Qed.
End RoundTrip.

Lemma round_trip c r :
  1 <= val c → val c <= 1000 → finite r → 0 <= val r →
  val r + (1 # 100) <= 60 / val c →
  let d := round (sub (div num_60 c) r) num_2 in
  let c' := round (div num_60 (add d r)) num_2 in
  normal d ∧ normal c'
  ∧ Qabs (val d + val r - 60 / val c) <= (1 # 200) + (1 # 1000000000000)
  ∧ Qabs (val c' - 60 / (val d + val r)) <= (1 # 200) + (1 # 1000000000)
  ∧ Qabs (val c' - val c) <= (1 # 100) + val c * val c' / 12000.
Proof.
  intros C1 C2 Fr Hr Hd d c'.
  destruct (val_pos_finite c) as [Pc Ec]; [lra|].
  assert (Ea : 60 / val c * val c == 60) by (field; lra).
  set (a := 60 / val c) in *.
  assert (Ea' : a == 60 / mag c) by (subst a; now rewrite Ec).
  destruct (trip_a (val c) a C1 C2 Ea) as [A1 A2].
  assert (Nt : near (div num_60 c) a).
  { destruct (div_60_near c Pc) as (N & N1 & N2).
    - rewrite <- Ea'. lra.
    - rewrite <- Ea'. change (10 ^ 15) with (1000000000000000 # 1). lra.
    - split; [exact N|]. rewrite Ea'. split; assumption. }
  destruct (sub_recover _ r a Nt Fr Hr) as (Nx & X1 & X2); [lra | lra |].
  set (x := sub (div num_60 c) r) in *.
  destruct (round_2_error x Nx) as (Nd & D1 & D2).
  { unfold rel in *. lra. }
  { change (10 ^ 12) with (1000000000000 # 1). unfold rel in *. lra. }
  fold d in Nd, D1, D2.
  destruct (normal_val d Nd) as (Ed & Pd & Sd).
  assert (T1 : mag d + val r - a <= (1 # 200) + (1 # 1000000000000))
    by (unfold rel in *; lra).
  assert (T2 : a - (mag d + val r) <= (1 # 200) + (1 # 1000000000000))
    by (unfold rel in *; lra).
  destruct (add_recover d r Nd Fr Hr) as (Ns & S1 & S2); [lra | lra |].
  set (s := add d r) in *.
  set (T := mag d + val r) in *.
  destruct (trip_U (val c) a T (mag s) C1 C2 Ea T1 T2 S1 S2) as [Q1 Q2].
  destruct (trip_b (val c) a T (mag s) C1 C2 Ea T1 T2 S1 S2) as (Eb & B1 & B2).
  destruct (div_60_near s (normal_positive _ Ns)) as (Ny & Y1 & Y2).
  { lra. }
  { change (10 ^ 15) with (1000000000000000 # 1). lra. }
  set (y := div num_60 s) in *.
  destruct (trip_Y (val c) a T (mag s) (mag y) C1 C2 Ea T1 T2 S1 S2 Y1 Y2) as [Y3 Y4].
  destruct (round_2_error y Ny) as (Nc & K1 & K2).
  { lra. }
  { change (10 ^ 12) with (1000000000000 # 1). lra. }
  fold c' in Nc, K1, K2.
  destruct (normal_val c' Nc) as (Ec' & Pc' & Sc').
  destruct (trip_cadence (val c) a T (mag s) (mag y) (mag c')
              C1 C2 Ea T1 T2 S1 S2 Y1 Y2 K1 K2) as [G1 G2].
  destruct (trip_distance (val c) a T (mag s) (mag y) (mag c')
              C1 C2 Ea T1 T2 S1 S2 Y1 Y2 K1 K2) as [H1 H2].
  split; [exact Nd|]. split; [exact Nc|].
  rewrite Ed, Ec'. fold T.
  split; [|split]; apply Qabs_Qle_condition; split; lra.
Qed.

End TripFacts.

(** ** The pace model and the timers: what each function leaves alone *)

Module AppFacts.
Import JSNumber JSString App NumberFacts.

Local Open Scope string_scope.

(** The part of the state that the pace model owns. *)
Definition pace (st : State) : PaceSettings * list string :=
  (paceSettings st, previousSettings st).

Definition zeroSettings : PaceSettings :=
  {| cadence := num_0; driveTime := num_0; recoverTime := num_0 |}.

Lemma clearTimeouts_pace hs st : pace (foldr clearTimeout st hs) = pace st.
Proof. induction hs as [|h hs IH]; simpl; [reflexivity | exact IH]. Qed.

Lemma clearTimeouts_effects hs st :
  effects (foldr clearTimeout st hs) = effects st.
Proof. induction hs as [|h hs IH]; simpl; [reflexivity | exact IH]. Qed.

Lemma clearTimeouts_ids hs st :
  timeoutIDs (foldr clearTimeout st hs) = timeoutIDs st.
Proof. induction hs as [|h hs IH]; simpl; [reflexivity | exact IH]. Qed.

Lemma clearTimeouts_next_handle hs st :
  next_handle (foldr clearTimeout st hs) = next_handle st.
Proof. induction hs as [|h hs IH]; simpl; [reflexivity | exact IH]. Qed.

Lemma clearTimeouts_clock hs st :
  clock (foldr clearTimeout st hs) = clock st.
Proof. induction hs as [|h hs IH]; simpl; [reflexivity | exact IH]. Qed.

(** After [forEach(clearTimeout)] the timeouts left are those whose handle
    was not in the list. *)
Lemma clearTimeouts_timers hs st t :
  t ∈ timers (foldr clearTimeout st hs) ↔ t ∈ timers st ∧ handle t ∉ hs.
Proof.
  induction hs as [|h hs IH]; simpl.
  - split; [intros H; split; [exact H | apply not_elem_of_nil] | tauto].
  - rewrite list_elem_of_filter, IH, not_elem_of_cons. tauto.
Qed.

Lemma stopAnimation_pace st : pace (stopAnimation st) = pace st.
Proof. unfold stopAnimation, pauseAllAudio, pace; simpl.
  pose proof (clearTimeouts_pace
    (map snd (map_to_list (timeoutIDs st)))
    (with_animationPlaying false (emit (ButtonText "Start") st))) as H.
  unfold pace in H; simpl in H. exact H.
Qed.


Lemma stopAnimation_previousSettings st :
  previousSettings (stopAnimation st) = previousSettings st.
Proof. exact (f_equal snd (stopAnimation_pace st)). Qed.

Lemma stopAnimation_ids st : timeoutIDs (stopAnimation st) = timeoutIDs st.
Proof. unfold stopAnimation, pauseAllAudio; simpl.
  now rewrite clearTimeouts_ids. Qed.

Lemma stopAnimation_next_handle st :
  next_handle (stopAnimation st) = next_handle st.
Proof. unfold stopAnimation, pauseAllAudio; simpl.
  now rewrite clearTimeouts_next_handle. Qed.

(** [stopAnimation] clears exactly the timeouts whose handle is recorded in
    [timeoutIDs]. *)
Lemma stopAnimation_timers st t :
  t ∈ timers (stopAnimation st) ↔
  t ∈ timers st ∧ ∀ id, timeoutIDs st !! id ≠ Some (handle t).
Proof.
  unfold stopAnimation, pauseAllAudio; simpl.
  rewrite clearTimeouts_timers; simpl.
  split; intros [Ht Hh]; (split; [exact Ht|]).
  - intros id Hid. apply Hh.
    apply list_elem_of_fmap. exists (id, handle t). split; [reflexivity|].
    now apply elem_of_map_to_list.
  - intros Hin. apply list_elem_of_fmap in Hin as [[id h] [Heq Hin]].
    simpl in Heq. subst h. apply elem_of_map_to_list in Hin.
    exact (Hh id Hin).
Qed.

Lemma resetInputs_pace st : pace (resetInputs st) = (zeroSettings, [""; ""]).
Proof. reflexivity. Qed.

Lemma wait_pace ms id k st : pace (wait ms id k st) = pace st.
Proof. reflexivity. Qed.

Lemma triggerAnimationIteration_pace st :
  pace (triggerAnimationIteration st) = pace st.
Proof. reflexivity. Qed.

Lemma resume_pace k st : pace (resume k st) = pace st.
Proof. destruct k; reflexivity. Qed.

Lemma run_timers_pace fuel t st : pace (run_timers fuel t st) = pace st.
Proof.
  revert st; induction fuel as [|fuel IH]; intros st; simpl; [reflexivity|].
  destruct (next_timer (timers st)) as [tm|]; [|reflexivity].
  destruct (due tm <=? t)%Z; [|reflexivity].
  rewrite IH, resume_pace. reflexivity.
Qed.

Lemma elapse_pace ms st : pace (elapse ms st) = pace st.
Proof. unfold elapse. exact (run_timers_pace _ _ st). Qed.

Lemma toggleStartStop_pace st : pace (toggleStartStop st) = pace st.
Proof.
  unfold toggleStartStop.
  destruct (animationPlaying st); [apply stopAnimation_pace|].
  destruct (_ || _); reflexivity.
Qed.

(** ** The recency tracker *)


Lemma addToPreviousSettings_two st a b f :
  previousSettings st = [a; b] →
  previousSettings (addToPreviousSettings f st)
  = if decide (b = f) then [a; b] else [b; f].
Proof.
  intros H. unfold addToPreviousSettings. rewrite H. simpl.
  destruct (decide (Some b = Some f)) as [E|E].
  - injection E as ->. rewrite H. now rewrite decide_True.
  - rewrite decide_False; [reflexivity | congruence].
Qed.

Lemma addToPreviousSettings_frame f st :
  paceSettings (addToPreviousSettings f st) = paceSettings st.
Proof. unfold addToPreviousSettings. now destruct (decide _). Qed.


(** ** The derivations *)

Definition recalculations : list (State -> Completion * State) :=
  [recalculateCadence; recalculateDriveTime; recalculateRecoverTime].

Lemma recalculations_cadence : recalculateCadence ∈ recalculations.
Proof. apply list_elem_of_here. Qed.

Lemma recalculations_driveTime : recalculateDriveTime ∈ recalculations.
Proof. apply list_elem_of_further, list_elem_of_here. Qed.

Lemma recalculations_recoverTime : recalculateRecoverTime ∈ recalculations.
Proof. do 2 apply list_elem_of_further. apply list_elem_of_here. Qed.

Lemma updatePaceSetting_invalid setting st :
  ToString setting ∉ paceSettings_keys →
  updatePaceSetting setting st
  = (Normal, emit (ConsoleError (ToString setting +:+ " is not a valid setting.")) st).
Proof.
  intros H. unfold updatePaceSetting, hasOwnProperty, paceSettingUpdateFunctions.
  unfold paceSettings_keys in H.
  rewrite !not_elem_of_cons in H. destruct H as (H1 & H2 & H3 & _).
  cbn -[String.eqb ToString append].
  destruct (String.eqb_spec "cadence" (ToString setting)); [congruence|].
  destruct (String.eqb_spec "driveTime" (ToString setting)); [congruence|].
  destruct (String.eqb_spec "recoverTime" (ToString setting)); [congruence|].
  reflexivity.
Qed.

Lemma updatePaceSetting_cases setting st :
  (ToString setting = "cadence" ∧ updatePaceSetting setting st = recalculateCadence st)
  ∨ (ToString setting = "driveTime" ∧ updatePaceSetting setting st = recalculateDriveTime st)
  ∨ (ToString setting = "recoverTime" ∧ updatePaceSetting setting st = recalculateRecoverTime st)
  ∨ ((ToString setting ∉ paceSettings_keys) ∧
     updatePaceSetting setting st
     = (Normal, emit (ConsoleError (ToString setting +:+ " is not a valid setting.")) st)).
Proof.
  destruct (decide (ToString setting ∈ paceSettings_keys)) as [Hin|Hout].
  - unfold paceSettings_keys in Hin. rewrite !elem_of_cons in Hin.
    destruct Hin as [E|[E|[E|E]]].
    + left. split; [exact E|]. unfold updatePaceSetting. now rewrite E.
    + right; left. split; [exact E|]. unfold updatePaceSetting. now rewrite E.
    + right; right; left. split; [exact E|]. unfold updatePaceSetting. now rewrite E.
    + now apply elem_of_nil in E.
  - right; right; right. split; [exact Hout|].
    now apply updatePaceSetting_invalid.
Qed.

(** A derivation that throws has reset the pace model. *)
Lemma recalculate_throw recalculate st msg st' :
  recalculate ∈ recalculations →
  recalculate st = (Throw msg, st') →
  pace st' = (zeroSettings, [""; ""]).
Proof.
  unfold recalculations. rewrite !elem_of_cons.
  intros [->|[->|[->|H]]]; [| | |now apply elem_of_nil in H];
    unfold recalculateCadence, recalculateDriveTime, recalculateRecoverTime;
    destruct (lt _ num_0); intros E; inversion E; reflexivity.
Qed.

(** A derivation that returns has left the tracker alone. *)
Lemma recalculate_normal recalculate st st' :
  recalculate ∈ recalculations →
  recalculate st = (Normal, st') →
  previousSettings st' = previousSettings st.
Proof.
  unfold recalculations. rewrite !elem_of_cons.
  intros [->|[->|[->|H]]]; [| | |now apply elem_of_nil in H];
    unfold recalculateCadence, recalculateDriveTime, recalculateRecoverTime;
    destruct (lt _ num_0); intros E; inversion E; reflexivity.
Qed.

Lemma updatePaceSetting_throw setting st msg st' :
  updatePaceSetting setting st = (Throw msg, st') →
  pace st' = (zeroSettings, [""; ""]).
Proof.
  destruct (updatePaceSetting_cases setting st) as [[_ E]|[[_ E]|[[_ E]|[_ E]]]];
    rewrite E; intros H.
  - exact (recalculate_throw _ _ _ _ recalculations_cadence H).
  - exact (recalculate_throw _ _ _ _ recalculations_driveTime H).
  - exact (recalculate_throw _ _ _ _ recalculations_recoverTime H).
  - discriminate H.
Qed.

Lemma updatePaceSetting_normal setting st st' :
  updatePaceSetting setting st = (Normal, st') →
  previousSettings st' = previousSettings st.
Proof.
  destruct (updatePaceSetting_cases setting st) as [[_ E]|[[_ E]|[[_ E]|[_ E]]]];
    rewrite E; intros H.
  - exact (recalculate_normal _ _ _ recalculations_cadence H).
  - exact (recalculate_normal _ _ _ recalculations_driveTime H).
  - exact (recalculate_normal _ _ _ recalculations_recoverTime H).
  - inversion H. reflexivity.
Qed.

(** The state in which [inputUpdated] looks at the tracker: the animation
    stopped, the tracker updated, the value stored. *)
Definition stored (this : Input) (value : string) (st : State) : State :=
  let st := addToPreviousSettings (id this) (stopAnimation st) in
  with_paceSettings (set_setting this (parseFloat value) (paceSettings st)) st.

Lemma inputUpdated_unfold this value st :
  inputUpdated this value st =
  match previousSettings (stored this value st) !! 0%nat with
  | None | Some "" => (Normal, stored this value st)
  | Some _ =>
      match updatePaceSetting (findRemainingInput (stored this value st))
                              (stored this value st) with
      | (Normal, st') => (Normal, updateAnimationCode st')
      | (Throw msg, st') => (Throw msg, st')
      end
  end.
Proof. reflexivity. Qed.


Lemma inputUpdated_throw this value st msg st' :
  inputUpdated this value st = (Throw msg, st') →
  pace st' = (zeroSettings, [""; ""]).
Proof.
  rewrite inputUpdated_unfold.
  destruct (previousSettings (stored this value st) !! 0%nat) as [[|c s]|];
    try discriminate.
  destruct (updatePaceSetting _ _) as [[|m] st1] eqn:E; [discriminate|].
  intros H. inversion H. subst. eapply updatePaceSetting_throw. exact E.
Qed.

(** Every edit leaves the tracker with the slots it had, or reset. *)
Lemma inputUpdated_previousSettings this value st :
  previousSettings (snd (inputUpdated this value st))
  = previousSettings (addToPreviousSettings (id this) (stopAnimation st))
  ∨ previousSettings (snd (inputUpdated this value st)) = [""; ""].
Proof.
  rewrite inputUpdated_unfold.
  destruct (previousSettings (stored this value st) !! 0%nat) as [[|c s]|];
    try (left; reflexivity).
  destruct (updatePaceSetting _ _) as [[|m] st1] eqn:E; simpl.
  - left. apply updatePaceSetting_normal in E. exact E.
  - right. apply updatePaceSetting_throw in E. exact (f_equal snd E).
Qed.

Lemma run_cons ev evs st : run (ev :: evs) st = run evs (dispatch ev st).
Proof. reflexivity. Qed.

Lemma run_app evs1 evs2 st : run (evs1 ++ evs2) st = run evs2 (run evs1 st).
Proof. unfold run. apply fold_left_app. Qed.

Definition two_slots (st : State) : Prop :=
  ∃ a b, previousSettings st = [a; b].

Lemma dispatch_two_slots ev st : two_slots st → two_slots (dispatch ev st).
Proof.
  intros (a & b & H). unfold two_slots. destruct ev; simpl.
  - pose proof (f_equal snd (toggleStartStop_pace st)) as E. simpl in E.
    rewrite E. eauto.
  - eauto.
  - destruct (inputUpdated_previousSettings i value st) as [E|E]; rewrite E; [|eauto].
    erewrite addToPreviousSettings_two
      by (rewrite stopAnimation_previousSettings; exact H).
    destruct (decide _); eauto.
  - eauto.
  - pose proof (f_equal snd (elapse_pace ms st)) as E. simpl in E.
    rewrite E. eauto.
Qed.

Lemma run_two_slots evs st : two_slots st → two_slots (run evs st).
Proof.
  revert st. induction evs as [|ev evs IH]; intros st H; [exact H|].
  rewrite run_cons. apply IH, dispatch_two_slots, H.
Qed.

Lemma loaded_two_slots : two_slots loaded.
Proof. exists "", "". reflexivity. Qed.

(** ** Edits of a single field *)








(** ** Edits that do not parse *)



Lemma ToString_undefined : ToString None ∉ paceSettings_keys.
Proof.
  unfold paceSettings_keys. rewrite !not_elem_of_cons.
  repeat split; try discriminate. apply not_elem_of_nil.
Qed.



Lemma keys_id key : key ∈ paceSettings_keys → ∃ i, key = id i.
Proof.
  unfold paceSettings_keys. rewrite !elem_of_cons.
  intros [->|[->|[->|H]]];
    [now exists inp_cadence | now exists inp_driveTime
     | now exists inp_recoverTime | now apply elem_of_nil in H].
Qed.

(** ** Timeout handles *)

(** A timeout with handle [h] is pending. *)
Definition pending (h : nat) (st : State) : Prop :=
  ∃ t, t ∈ timers st ∧ handle t = h.

(** Handles are handed out in increasing order, so a handle is recorded
    under one label at most. *)
Record handles_ok (st : State) : Prop := {
  ids_below : ∀ id h, timeoutIDs st !! id = Some h → (h < next_handle st)%nat;
  timers_below : ∀ t, t ∈ timers st → (handle t < next_handle st)%nat;
  ids_distinct : ∀ id1 id2 h,
      timeoutIDs st !! id1 = Some h → timeoutIDs st !! id2 = Some h → id1 = id2
}.

(** [st'] has the labels and the counter of [st], and no timeout that [st]
    has not. *)
Definition fewer_timers (st' st : State) : Prop :=
  timeoutIDs st' = timeoutIDs st
  ∧ next_handle st' = next_handle st
  ∧ ∀ t, t ∈ timers st' → t ∈ timers st.

Lemma fewer_timers_refl st : fewer_timers st st.
Proof. repeat split; auto. Qed.

Lemma fewer_timers_trans st1 st2 st3 :
  fewer_timers st1 st2 → fewer_timers st2 st3 → fewer_timers st1 st3.
Proof.
  intros (A1 & B1 & C1) (A2 & B2 & C2).
  repeat split; [congruence | congruence | auto].
Qed.

Lemma handles_ok_fewer st' st : fewer_timers st' st → handles_ok st → handles_ok st'.
Proof.
  intros (A & B & C) [H1 H2 H3]. split.
  - intros id h. rewrite A, B. apply H1.
  - intros t Ht. rewrite B. apply H2, C, Ht.
  - intros id1 id2 h. rewrite A. apply H3.
Qed.

Lemma fewer_timers_emit e st : fewer_timers (emit e st) st.
Proof. repeat split; auto. Qed.

Lemma fewer_timers_stopAnimation st : fewer_timers (stopAnimation st) st.
Proof.
  repeat split.
  - apply stopAnimation_ids.
  - apply stopAnimation_next_handle.
  - intros t Ht. now apply stopAnimation_timers in Ht.
Qed.

Lemma fewer_timers_resetInputs st : fewer_timers (resetInputs st) st.
Proof.
  eapply fewer_timers_trans; [|apply fewer_timers_stopAnimation].
  repeat split; auto.
Qed.

Lemma fewer_timers_addToPreviousSettings f st :
  fewer_timers (addToPreviousSettings f st) st.
Proof.
  unfold addToPreviousSettings. destruct (decide _); repeat split; auto.
Qed.

Lemma fewer_timers_recalculate recalculate st :
  recalculate ∈ recalculations → fewer_timers (snd (recalculate st)) st.
Proof.
  unfold recalculations. rewrite !elem_of_cons.
  intros [->|[->|[->|H]]]; [| | |now apply elem_of_nil in H];
    unfold recalculateCadence, recalculateDriveTime, recalculateRecoverTime;
    destruct (lt _ num_0); cbn [snd];
    try apply fewer_timers_resetInputs; repeat split; auto.
Qed.

Lemma fewer_timers_updatePaceSetting setting st :
  fewer_timers (snd (updatePaceSetting setting st)) st.
Proof.
  destruct (updatePaceSetting_cases setting st) as [[_ E]|[[_ E]|[[_ E]|[_ E]]]];
    rewrite E.
  - apply fewer_timers_recalculate, recalculations_cadence.
  - apply fewer_timers_recalculate, recalculations_driveTime.
  - apply fewer_timers_recalculate, recalculations_recoverTime.
  - repeat split; auto.
Qed.

Lemma fewer_timers_inputUpdated this value st :
  fewer_timers (snd (inputUpdated this value st)) st.
Proof.
  assert (Hs : fewer_timers (stored this value st) st).
  { unfold stored.
    eapply fewer_timers_trans; [|apply fewer_timers_stopAnimation].
    eapply fewer_timers_trans; [|apply fewer_timers_addToPreviousSettings].
    repeat split; auto. }
  rewrite inputUpdated_unfold.
  destruct (previousSettings (stored this value st) !! 0%nat) as [[|c s]|];
    try exact Hs.
  pose proof (fewer_timers_updatePaceSetting
                (findRemainingInput (stored this value st))
                (stored this value st)) as Hu.
  destruct (updatePaceSetting _ _) as [[|m] st1]; cbn [snd] in *.
  - eapply fewer_timers_trans; [|eapply fewer_timers_trans; [exact Hu | exact Hs]].
    repeat split; auto.
  - eapply fewer_timers_trans; [exact Hu | exact Hs].
Qed.

Lemma handles_ok_emit e st : handles_ok st → handles_ok (emit e st).
Proof. apply handles_ok_fewer, fewer_timers_emit. Qed.

Lemma handles_ok_wait ms id k st : handles_ok st → handles_ok (wait ms id k st).
Proof.
  intros [H1 H2 H3]. split; cbn [wait timeoutIDs timers next_handle].
  - intros id' h. rewrite lookup_insert. destruct (decide (id = id')).
    + intros E. injection E as <-. lia.
    + intros E. apply H1 in E. lia.
  - intros t. rewrite elem_of_app, list_elem_of_singleton.
    intros [Ht| ->]; [apply H2 in Ht; lia | simpl; lia].
  - intros id1 id2 h. rewrite !lookup_insert.
    destruct (decide (id = id1)), (decide (id = id2)); intros E1 E2.
    + congruence.
    + injection E1 as <-. apply H1 in E2. lia.
    + injection E2 as <-. apply H1 in E1. lia.
    + eapply H3; eassumption.
Qed.

Lemma handles_ok_triggerAnimationIteration st :
  handles_ok st → handles_ok (triggerAnimationIteration st).
Proof.
  intros H. unfold triggerAnimationIteration, changeColors, showCatchColor,
    playSounds, playCatchSound.
  repeat (apply handles_ok_wait || apply handles_ok_emit). exact H.
Qed.

Lemma handles_ok_resume k st : handles_ok st → handles_ok (resume k st).
Proof.
  intros H. destruct k; cbn [resume].
  - apply handles_ok_triggerAnimationIteration, handles_ok_emit, H.
  - unfold playRecoverSound.
    repeat (apply handles_ok_wait || apply handles_ok_emit). exact H.
  - exact H.
  - unfold showFinishColor.
    repeat (apply handles_ok_wait || apply handles_ok_emit). exact H.
  - apply handles_ok_emit, H.
  - apply handles_ok_emit, H.
Qed.

Lemma fewer_timers_clearTimeout h st : fewer_timers (clearTimeout h st) st.
Proof.
  repeat split; auto. intros t Ht. cbn in Ht.
  now apply list_elem_of_filter in Ht.
Qed.

Lemma handles_ok_run_timers fuel t st :
  handles_ok st → handles_ok (run_timers fuel t st).
Proof.
  revert st. induction fuel as [|fuel IH]; intros st H; cbn [run_timers]; [exact H|].
  destruct (next_timer (timers st)) as [tm|]; [|exact H].
  destruct (due tm <=? t)%Z; [|exact H].
  apply IH, handles_ok_resume.
  eapply handles_ok_fewer; [|exact H].
  eapply fewer_timers_trans; [|apply (fewer_timers_clearTimeout (handle tm))].
  repeat split; auto.
Qed.

Lemma handles_ok_dispatch ev st : handles_ok st → handles_ok (dispatch ev st).
Proof.
  intros H. destruct ev; cbn [dispatch].
  - unfold toggleStartStop. destruct (animationPlaying st).
    + eapply handles_ok_fewer; [apply fewer_timers_stopAnimation | exact H].
    + destruct (_ || _); [exact H|].
      unfold startAnimation, playCountdownSound.
      repeat (apply handles_ok_wait || apply handles_ok_emit).
      eapply handles_ok_fewer; [|exact H]. repeat split; auto.
  - eapply handles_ok_fewer; [apply fewer_timers_resetInputs | exact H].
  - eapply handles_ok_fewer; [apply fewer_timers_inputUpdated | exact H].
  - apply handles_ok_triggerAnimationIteration, H.
  - unfold elapse. eapply handles_ok_fewer;
      [|apply (handles_ok_run_timers (budget st) (clock st + Z.max 0 ms) st H)].
    repeat split; auto.
Qed.

Lemma handles_ok_run evs st : handles_ok st → handles_ok (run evs st).
Proof.
  revert st. induction evs as [|ev evs IH]; intros st H; [exact H|].
  rewrite run_cons. apply IH, handles_ok_dispatch, H.
Qed.

Lemma handles_ok_loaded : handles_ok loaded.
Proof.
  eapply handles_ok_fewer; [apply fewer_timers_resetInputs|].
  split; cbn.
  - intros id h E. rewrite lookup_empty in E. discriminate E.
  - intros t Ht. now apply elem_of_nil in Ht.
  - intros id1 id2 h E. rewrite lookup_empty in E. discriminate E.
Qed.

(** When every pending timeout is recorded, a stop leaves none, and time
    may pass without anything happening. *)
Lemma stopAnimation_all_recorded st :
  (∀ t, t ∈ timers st → ∃ id, timeoutIDs st !! id = Some (handle t)) →
  timers (stopAnimation st) = [].
Proof.
  intros H. destruct (timers (stopAnimation st)) as [|t l] eqn:E; [reflexivity|].
  assert (Ht : t ∈ timers (stopAnimation st)) by (rewrite E; apply list_elem_of_here).
  apply stopAnimation_timers in Ht as [Ht Hno].
  destruct (H t Ht) as [id Hid]. now apply Hno in Hid.
Qed.

Lemma elapse_no_timers ms st :
  timers st = [] → effects (elapse ms st) = effects st.
Proof.
  intros H. unfold elapse, budget. rewrite H. reflexivity.
Qed.

End AppFacts.

(** * The claims *)

Import JSNumber JSString App NumberFacts StringFacts RoundFacts TripFacts AppFacts.

Local Open Scope string_scope.

(** The session in which C1 fails: a cadence of 300 strokes a minute with a
    drive of 0.1 s (the recover time, 0.1 s, is derived), the animation
    started, the countdown of 3300 ms, a first stroke of 200 ms, and the
    second stroke just begun: its [showCatchColor] has stored its handle
    under "catchColor" while the timeout of the first stroke, due 50 ms
    later, was still pending. *)
Definition fast_strokes : list Event :=
  [ Edit inp_cadence "300"; Edit inp_driveTime "0.1"; Click_startStop;
    Elapse 3300; Elapse 200; AnimationIteration; Elapse 10 ].

(** C1 does not hold of the code: in that session the animation is playing;
    the user stops it; 100 ms later the timeout of the first stroke fires
    and removes the class "catch" from the rower. *)
Theorem stale_timeout_fires_after_stop :
  let st := run fast_strokes loaded in
  let stopped := toggleStartStop st in
  animationPlaying st = true
  ∧ stopped = stopAnimation st
  ∧ effects (elapse 100 stopped) = (effects stopped ++ [ClassRemove ["catch"]])%list.
Proof. vm_compute. repeat split. Qed.

(** C9: in every state the page can reach, when [wait] is called with a
    label under which the handle [h] of a pending timeout is recorded, the
    label gets the new handle, [h] is recorded under no label any more, and
    the timeout [h] is still pending after [stopAnimation]. *)
Theorem wait_orphans_pending_timeout
  (evs : list Event) (ms : Number) (id : string) (k : Resume) (h : nat) :
  let st := run evs loaded in
  timeoutIDs st !! id = Some h →
  pending h st →
  let st' := wait ms id k st in
  timeoutIDs st' !! id = Some (next_handle st)
  ∧ next_handle st ≠ h
  ∧ (∀ id', timeoutIDs st' !! id' ≠ Some h)
  ∧ pending h (stopAnimation st').
Proof.
  intros st Hid (t & Ht & Hh) st'.
  destruct (handles_ok_run evs loaded handles_ok_loaded) as [H1 H2 H3].
  fold st in H1, H2, H3.
  assert (Hlt : (h < next_handle st)%nat) by exact (H1 _ _ Hid).
  assert (Hno : ∀ id', timeoutIDs st' !! id' ≠ Some h).
  { intros id'. unfold st'. cbn [wait timeoutIDs]. rewrite lookup_insert.
    destruct (decide (id = id')) as [->|Hne].
    - intros E. injection E as E. lia.
    - intros E. apply Hne. symmetry. exact (H3 _ _ _ E Hid). }
  split; [|split; [|split]].
  - unfold st'. cbn [wait timeoutIDs]. apply lookup_insert_eq.
  - lia.
  - exact Hno.
  - exists t. split; [|exact Hh].
    apply stopAnimation_timers. split.
    + unfold st'. cbn [wait timers]. apply elem_of_app. now left.
    + rewrite Hh. exact Hno.
Qed.

Lemma wait_orphans_pending_timeout_witness :
  let st := run [ Edit inp_cadence "300"; Edit inp_driveTime "0.1";
                  Click_startStop; Elapse 3300; Elapse 200 ] loaded in
  let st' := wait colorChangeDuration "catchColor" showCatchColor_1 st in
  timeoutIDs st !! "catchColor" = Some 3%nat
  ∧ pending 3 st
  ∧ timeoutIDs st' !! "catchColor" = Some (next_handle st)
  ∧ next_handle st ≠ 3%nat
  ∧ (∀ id', timeoutIDs st' !! id' ≠ Some 3%nat)
  ∧ pending 3 (stopAnimation st').
Proof.
  intros st st'.
  assert (Hid : timeoutIDs st !! "catchColor" = Some 3%nat)
    by (vm_compute; reflexivity).
  assert (Hp : pending 3 st).
  { exists {| handle := 3; due := 3550; resolve := showCatchColor_1 |}.
    split; [|reflexivity]. apply list_elem_of_In. vm_compute. tauto. }
  split; [exact Hid|]. split; [exact Hp|].
  exact (wait_orphans_pending_timeout _ colorChangeDuration "catchColor"
           showCatchColor_1 3%nat Hid Hp).
Defined.







(** C4: a derivation that fails has reset the whole pace model before the
    exception leaves it: the three settings are 0 and the tracker is empty,
    for each of the three derivations and for the edit that called it.
    Deriving the drive time from cadence 60 and recover time 2 fails in this
    way. *)
Theorem invalid_pace_resets_model :
  (∀ recalculate st msg st',
      recalculate ∈ recalculations →
      recalculate st = (Throw msg, st') →
      paceSettings st' = zeroSettings ∧ previousSettings st' = [""; ""])
  ∧ (∀ this value st msg st',
      inputUpdated this value st = (Throw msg, st') →
      paceSettings st' = zeroSettings ∧ previousSettings st' = [""; ""])
  ∧ (∀ st d,
      ∃ msg st',
        recalculateDriveTime
          (with_paceSettings
             {| cadence := of_Z 60; driveTime := d; recoverTime := of_Z 2 |} st)
        = (Throw msg, st')
        ∧ paceSettings st' = zeroSettings ∧ previousSettings st' = [""; ""]).
Proof.
  split; [|split].
  - intros recalculate st msg st' Hin H.
    pose proof (recalculate_throw _ _ _ _ Hin H) as E.
    inversion E. split; reflexivity.
  - intros this value st msg st' H.
    pose proof (inputUpdated_throw _ _ _ _ _ H) as E.
    inversion E. split; reflexivity.
  - intros st d. unfold recalculateDriveTime.
    cbn [paceSettings with_paceSettings cadence recoverTime].
    replace (round (sub (div num_60 (of_Z 60)) (of_Z 2)) num_2)
      with (of_Z (-1)) by (vm_compute; reflexivity).
    replace (lt (of_Z (-1)) num_0) with true by (vm_compute; reflexivity).
    eexists; eexists; split; [reflexivity|]. split; reflexivity.
Qed.

Lemma invalid_pace_resets_model_witness :
  ∃ msg st',
    recalculateDriveTime
      (with_paceSettings
         {| cadence := of_Z 60; driveTime := num_0; recoverTime := of_Z 2 |} loaded)
    = (Throw msg, st')
    ∧ paceSettings st' = zeroSettings ∧ previousSettings st' = [""; ""].
Proof.
  eexists; eexists.
  assert (E : recalculateDriveTime
      (with_paceSettings
         {| cadence := of_Z 60; driveTime := num_0; recoverTime := of_Z 2 |} loaded)
      = (Throw "Calculated invalid drive time",
         resetInputs (with_paceSettings
         {| cadence := of_Z 60; driveTime := num_0; recoverTime := of_Z 2 |} loaded))).
  { vm_compute. reflexivity. }
  split; [exact E|].
  exact (proj1 invalid_pace_resets_model recalculateDriveTime _ _ _
           recalculations_driveTime E).
Defined.

(** C5, as stated, fails: with a cadence of 61 and a recover time of 0.5 the
    drive time is derived as 0.48 (60 / 61 - 0.5 = 0.4836...), and the
    cadence derived back from 0.48 and 0.5 is 61.22 (60 / 0.98 =
    61.2244...), 0.22 away from the cadence that was entered. *)
Lemma round_trip_misses_cadence :
  let st := run [Edit inp_cadence "61"; Edit inp_recoverTime "0.5"] loaded in
  let derived := recalculateDriveTime st in
  let back := recalculateCadence (snd derived) in
  cadence (paceSettings st) = StringToNumber "61"
  ∧ recoverTime (paceSettings st) = StringToNumber "0.5"
  ∧ fst derived = Normal
  ∧ driveTime (paceSettings (snd derived)) = StringToNumber "0.48"
  ∧ fst back = Normal
  ∧ cadence (paceSettings (snd back)) = StringToNumber "61.22"
  ∧ (1 # 100 < Qabs (val (cadence (paceSettings (snd back)))
                     - val (cadence (paceSettings st))))%Q.
Proof. vm_compute. repeat split. Qed.

(** C5, amended: for every cadence between 1 and 1000 and every recover
    time that is finite, not negative and at least 0.01 s shorter than the
    stroke [60 / cadence], [recalculateDriveTime] succeeds and
    [recalculateCadence] succeeds on its result, leaving the recover time
    and the derived drive time as they are; the stroke stored, drive time
    plus recover time, is within 0.005 (and a rounding error below 10^-12)
    of [60 / cadence]; the cadence derived back is within 0.005 (and
    10^-9) of 60 over the stroke stored; and it is within [0.01 + cadence *
    cadence' / 12000] of the cadence that was entered, where [cadence'] is
    the cadence derived back. *)
Theorem drive_time_round_trip (st : State) :
  let p := paceSettings st in
  (1 <= val (cadence p))%Q →
  (val (cadence p) <= 1000)%Q →
  finite (recoverTime p) →
  (0 <= val (recoverTime p))%Q →
  (val (recoverTime p) + (1 # 100) <= 60 / val (cadence p))%Q →
  ∃ st1 st2,
    recalculateDriveTime st = (Normal, st1)
    ∧ recalculateCadence st1 = (Normal, st2)
    ∧ recoverTime (paceSettings st2) = recoverTime p
    ∧ driveTime (paceSettings st2) = driveTime (paceSettings st1)
    ∧ (Qabs (val (driveTime (paceSettings st1)) + val (recoverTime p)
             - 60 / val (cadence p))
       <= (1 # 200) + (1 # 1000000000000))%Q
    ∧ (Qabs (val (cadence (paceSettings st2))
             - 60 / (val (driveTime (paceSettings st1)) + val (recoverTime p)))
       <= (1 # 200) + (1 # 1000000000))%Q
    ∧ (Qabs (val (cadence (paceSettings st2)) - val (cadence p))
       <= (1 # 100) + val (cadence p) * val (cadence (paceSettings st2)) / 12000)%Q.
Proof.
  intros p C1 C2 Fr Hr Hd.
  destruct (round_trip (cadence p) (recoverTime p) C1 C2 Fr Hr Hd)
    as (Nd & Nc & B1 & B2 & B3).
  set (d := round (sub (div num_60 (cadence p)) (recoverTime p)) num_2) in *.
  set (c' := round (div num_60 (add d (recoverTime p))) num_2) in *.
  assert (Ld : lt d num_0 = false).
  { apply lt_0_nonneg. now destruct Nd as (m & e & -> & _). }
  assert (Lc : lt c' num_0 = false).
  { apply lt_0_nonneg. now destruct Nc as (m & e & -> & _). }
  eexists _, _. split.
  { unfold recalculateDriveTime. fold p d. rewrite Ld. reflexivity. }
  split.
  { unfold recalculateCadence. cbn [paceSettings emit with_paceSettings
      set_setting driveTime recoverTime].
    fold c'. rewrite Lc. reflexivity. }
  cbn [paceSettings emit with_paceSettings set_setting
       driveTime recoverTime cadence].
  repeat split; assumption.
Qed.

Lemma drive_time_round_trip_witness :
  let st := run [Edit inp_cadence "61"; Edit inp_recoverTime "0.5"] loaded in
  let p := paceSettings st in
  (1 <= val (cadence p))%Q
  ∧ (val (cadence p) <= 1000)%Q
  ∧ finite (recoverTime p)
  ∧ (0 <= val (recoverTime p))%Q
  ∧ (val (recoverTime p) + (1 # 100) <= 60 / val (cadence p))%Q
  ∧ ∃ st1 st2,
      recalculateDriveTime st = (Normal, st1)
      ∧ recalculateCadence st1 = (Normal, st2)
      ∧ (Qabs (val (cadence (paceSettings st2)) - val (cadence p))
         <= (1 # 100) + val (cadence p) * val (cadence (paceSettings st2)) / 12000)%Q.
Proof.
  intros st p.
  assert (C1 : (1 <= val (cadence p))%Q) by (vm_compute; discriminate).
  assert (C2 : (val (cadence p) <= 1000)%Q) by (vm_compute; discriminate).
  assert (Fr : finite (recoverTime p)) by (vm_compute; exact I).
  assert (Hr : (0 <= val (recoverTime p))%Q) by (vm_compute; discriminate).
  assert (Hd : (val (recoverTime p) + (1 # 100) <= 60 / val (cadence p))%Q)
    by (vm_compute; discriminate).
  split; [exact C1|]. split; [exact C2|]. split; [exact Fr|].
  split; [exact Hr|]. split; [exact Hd|].
  destruct (drive_time_round_trip st C1 C2 Fr Hr Hd)
    as (st1 & st2 & E1 & E2 & _ & _ & _ & _ & B).
  exists st1, st2. split; [exact E1|]. split; [exact E2|]. exact B.
Defined.

(** What C6 says of [round(x, 2)]: the nearest multiple of 0.01, the one
    away from zero when there are two. *)
Definition half_away (q : Q) : Z :=
  if Qle_bool 0 q then Qfloor (q + (1 # 2)) else - Qfloor (- q + (1 # 2)).

(** C6, as stated, fails: -0.125 is a number, its third decimal is exactly
    5, and [round(-0.125, 2)] is -0.12, where rounding half away from zero
    gives -0.13. *)
Lemma negative_tie_rounds_toward_zero :
  let x := StringToNumber "-0.125" in
  (val x == - (1 # 8))%Q
  ∧ round x num_2 = StringToNumber "-0.12"
  ∧ of_Q (inject_Z (half_away (val x * 100)) / 100) = StringToNumber "-0.13"
  ∧ round x num_2 ≠ of_Q (inject_Z (half_away (val x * 100)) / 100).
Proof. vm_compute. repeat split; discriminate. Qed.

(** C6, amended: for every finite number [x] that [Number::toString] writes
    in plain notation (and below 2^51 / 100), [round(x, 2)] is the Number
    nearest to [n / 100], where [n] is the integer nearest, ties toward
    +Infinity, to the Number nearest to 100 times the decimal written for
    [x].  So a decimal whose third place is exactly 5, [(k + 1/2) / 100], is
    rounded to [(k + 1) / 100]: to the larger absolute value when positive,
    to the smaller when negative. *)
Theorem round_2_rounds_half_up (s : bool) (m : positive) (e : Z) :
  let x := Finite s m e in
  plain (snd (decimal_of x)) →
  (rendered x * 100 <= 2 ^ 51)%Q →
  round x num_2 = of_Q (inject_Z (half_up (val (of_Q (decimal x * 100)))) / 100)
  ∧ ∀ k : Z, (decimal x * 100 == inject_Z k + (1 # 2))%Q →
             round x num_2 = of_Q (inject_Z (k + 1) / 100).
Proof.
  intros x Hn Hb. split.
  - exact (round_2_plain s m e Hn Hb).
  - intros k Hk. exact (round_2_tie s m e k Hn Hb Hk).
Qed.

Lemma round_2_rounds_half_up_witness :
  let x := Finite true 4503599627370496 (-55) in
  x = StringToNumber "-0.125"
  ∧ plain (snd (decimal_of x))
  ∧ (rendered x * 100 <= 2 ^ 51)%Q
  ∧ (decimal x * 100 == inject_Z (-13) + (1 # 2))%Q
  ∧ round x num_2 = of_Q (inject_Z (-13 + 1) / 100).
Proof.
  intros x.
  assert (Hn : plain (snd (decimal_of x))) by (vm_compute; split; [reflexivity | discriminate]).
  assert (Hb : (rendered x * 100 <= 2 ^ 51)%Q) by (vm_compute; discriminate).
  assert (Hk : (decimal x * 100 == inject_Z (-13) + (1 # 2))%Q) by (vm_compute; reflexivity).
  split; [vm_compute; reflexivity|]. split; [exact Hn|]. split; [exact Hb|].
  split; [exact Hk|].
  exact (proj2 (round_2_rounds_half_up true 4503599627370496 (-55) Hn Hb) (-13) Hk).
Defined.


(** C8: in every state the page can reach, the tracker has exactly two
    slots [a; b]; adding the setting that is in the second slot leaves it as
    it is, and adding any other setting [f] makes it [b; f], the older entry
    [a] being dropped. *)
Theorem recency_tracker_window (evs : list Event) (f : string) :
  let st := run evs loaded in
  ∃ a b, previousSettings st = [a; b]
         ∧ previousSettings (addToPreviousSettings f st)
           = if decide (b = f) then [a; b] else [b; f].
Proof.
  intros st.
  destruct (run_two_slots evs loaded loaded_two_slots) as (a & b & H).
  fold st in H. exists a, b. split; [exact H|].
  now apply addToPreviousSettings_two.
Qed.

(** C10: for a setting that is none of cadence, driveTime and recoverTime
    (the name [undefined] included), [updatePaceSetting] logs an error and
    returns normally; the settings and the tracker are as they were. *)
Theorem updatePaceSetting_unknown (setting : option string) (st : State) :
  ToString setting ∉ paceSettings_keys →
  ∃ st', updatePaceSetting setting st = (Normal, st')
         ∧ st' = emit (ConsoleError (ToString setting +:+ " is not a valid setting.")) st
         ∧ paceSettings st' = paceSettings st
         ∧ previousSettings st' = previousSettings st.
Proof.
  intros H. eexists. split; [now apply updatePaceSetting_invalid|].
  repeat split.
Qed.

Lemma updatePaceSetting_unknown_witness :
  (ToString None ∉ paceSettings_keys)
  ∧ ∃ st', updatePaceSetting None loaded = (Normal, st')
           ∧ st' = emit (ConsoleError "undefined is not a valid setting.") loaded
           ∧ paceSettings st' = paceSettings loaded
           ∧ previousSettings st' = previousSettings loaded.
Proof.
  split; [exact ToString_undefined|].
  exact (updatePaceSetting_unknown None loaded ToString_undefined).
Defined.
